(** * rct: Serializer, SharedMemory and EventLoop

    A shallow embedding of [rct/Serializer.h], [rct/SharedMemory.cpp] and
    [rct/EventLoop.h], with the properties of their documented behaviour.

    Conventions.  C++ [int] values are [Z]; a pointer to bytes is the list of
    bytes readable from it (or [None] for the null pointer); an [assert] that
    fails and an operation the language leaves undefined are explicit
    outcomes, never silently skipped. *)

From Stdlib Require Import ZArith Lia.
From Stdlib.Strings Require Import Byte.
From stdpp Require Import gmap strings list.

Local Open Scope Z_scope.

(** ** Outcomes of a C++ call *)

Inductive outcome (A : Type) : Type :=
| Ok (a : A)            (* the call returned *)
| AssertFail            (* an [assert] aborted the program *)
| Undefined.            (* undefined behaviour was reached *)

Arguments Ok {A} a.
Arguments AssertFail {A}.
Arguments Undefined {A}.

Definition INT_MIN : Z := - 2 ^ 31.
Definition INT_MAX : Z := 2 ^ 31 - 1.

Definition in_int (z : Z) : bool := (INT_MIN <=? z) && (z <=? INT_MAX).

(** [a + b] on [int]: signed overflow is undefined. *)
Definition int_add (a b : Z) : outcome Z :=
  if in_int (a + b) then Ok (a + b) else Undefined.

(** Conversion of a [size_t] or [long] to [int]: the value modulo 2^32
    that lies in the range of [int]. *)
Definition narrow_int (n : Z) : Z := (n + 2 ^ 31) mod 2 ^ 32 - 2 ^ 31.

(** Conversion of an [int] to [size_t] on a 64-bit target. *)
Definition to_size_t (n : Z) : Z := n mod 2 ^ 64.

(** [memcpy(target, src + off, n)]: the [n] bytes of [src] from offset [off];
    reading outside the object [src] is undefined. *)
Definition memcpy (src : list byte) (off n : Z) : outcome (list byte) :=
  if (0 <=? off) && (0 <=? n) && (off + n <=? Z.of_nat (length src))
  then Ok (take (Z.to_nat n) (drop (Z.to_nat off) src))
  else Undefined.

(** ** A stdio stream (the environment of the file-backed variants) *)

Module Stdio.

(** [fdata]: the bytes of the file; [fpos]: the stream position;
    [fcap]: the size beyond which the device refuses bytes. *)
Record FILE : Type := mkFILE {
  fdata : list byte;
  fpos : Z;
  fcap : Z
}.

Definition ftell (f : FILE) : Z := fpos f.

(** [fwrite(data, 1, len, f)] on a stream positioned at its end: the
    number of bytes accepted and the stream afterwards. *)
Definition fwrite (data : list byte) (len : Z) (f : FILE) : Z * FILE :=
  let room := Z.max 0 (fcap f - Z.of_nat (length (fdata f))) in
  let n := Z.min (Z.max 0 len) room in
  let out := fdata f ++ take (Z.to_nat n) data in
  (n, {| fdata := out; fpos := Z.of_nat (length out); fcap := fcap f |}).

(** [fread(target, 1, len, f)]: the bytes read and the stream afterwards. *)
Definition fread (len : Z) (f : FILE) : list byte * FILE :=
  let got := take (Z.to_nat len) (drop (Z.to_nat (fpos f)) (fdata f)) in
  (got, {| fdata := fdata f;
           fpos := fpos f + Z.of_nat (length got);
           fcap := fcap f |}).

(** [fseek(f, off, SEEK_CUR)]. *)
Definition fseek_cur (off : Z) (f : FILE) : FILE :=
  {| fdata := fdata f; fpos := fpos f + off; fcap := fcap f |}.

End Stdio.

(** ** Serializer.h *)

Module Serializer.

(** [class Serializer::Buffer]: the two pure virtual members. [write]
    receives the pointer (the bytes readable from it) and the length. *)
Class Buffer (B : Type) : Type := {
  buf_write : B -> list byte -> Z -> B * bool;
  buf_pos : B -> Z
}.

(** [StringBuffer]: appends [len] bytes to the string, never fails;
    [int pos()] is the string's [size()] converted to [int]. *)
Record StringBuffer : Type := mkStringBuffer { mString : list byte }.

#[export] Instance StringBuffer_Buffer : Buffer StringBuffer := {
  buf_write b data len :=
    ({| mString := mString b ++ take (Z.to_nat len) data |}, true);
  buf_pos b := narrow_int (Z.of_nat (length (mString b)))
}.

(** [FileBuffer]: succeeds when [fwrite] accepted all [len] bytes;
    [pos()] is [static_cast<int>(ftell(mFile))]. *)
Record FileBuffer : Type := mkFileBuffer { mFile : Stdio.FILE }.

#[export] Instance FileBuffer_Buffer : Buffer FileBuffer := {
  buf_write b data len :=
    let '(ret, f) := Stdio.fwrite data len (mFile b) in
    ({| mFile := f |}, ret =? len);
  buf_pos b := narrow_int (Stdio.ftell (mFile b))
}.

Section WithBuffer.
Context {B : Type} `{Buffer B}.

Record Serializer : Type := mkSerializer {
  mError : bool;
  mBuffer : B
}.

(** The constructors all set [mError(false)]. *)
Definition make (buffer : B) : Serializer :=
  {| mError := false; mBuffer := buffer |}.

(** One invocation of [mBuffer->write]. *)
Record BufCall : Type := mkBufCall {
  call_data : list byte;
  call_len : Z
}.

(** What a call of [Serializer::write] did: the value returned, the
    invocations of the underlying buffer it made, the object
    afterwards. *)
Record Written : Type := mkWritten {
  ret : bool;
  calls : list BufCall;
  after : Serializer
}.

Definition write (s : Serializer) (data : list byte) (len : Z)
  : outcome Written :=
  if len <=? 0 then AssertFail                       (* assert(len > 0) *)
  else if mError s then
    Ok {| ret := false; calls := []; after := s |}
  else
    let '(b, ok) := buf_write (mBuffer s) data len in
    let invoked := [ {| call_data := data; call_len := len |} ] in
    if negb ok then
      Ok {| ret := false; calls := invoked;
            after := {| mError := true; mBuffer := b |} |}
    else
      Ok {| ret := true; calls := invoked;
            after := {| mError := mError s; mBuffer := b |} |}.

Definition pos (s : Serializer) : Z := buf_pos (mBuffer s).

Definition hasError (s : Serializer) : bool := mError s.

(** A client issuing [write] calls one after the other; the program
    stops at the first failed assertion. *)
Record Run : Type := mkRun {
  rets : list bool;
  invoked : list BufCall;
  final : Serializer;
  aborted : bool
}.

Fixpoint run (s : Serializer) (ws : list (list byte * Z)) : Run :=
  match ws with
  | [] => {| rets := []; invoked := []; final := s; aborted := false |}
  | (data, len) :: ws' =>
      match write s data len with
      | Ok w =>
          let r := run (after w) ws' in
          {| rets := ret w :: rets r;
             invoked := calls w ++ invoked r;
             final := final r;
             aborted := aborted r |}
      | _ => {| rets := []; invoked := []; final := s; aborted := true |}
      end
  end.

End WithBuffer.

Arguments Serializer B : clear implicits.
Arguments Written B : clear implicits.
Arguments Run B : clear implicits.

(** A Serializer over a file that accepts two more bytes. *)
Definition short_file : Serializer FileBuffer :=
  make (mkFileBuffer
          {| Stdio.fdata := []; Stdio.fpos := 0; Stdio.fcap := 2 |}).

End Serializer.

(** ** Deserializer (Serializer.h) *)

Module Deserializer.

Import Stdio.

Record Deserializer : Type := mkDeserializer {
  mData : option (list byte);
  mLength : Z;
  mPos : Z;
  mFile : option FILE;
  mKey : string
}.

(** [Deserializer(const char *data, int length, const char *key)]. *)
Definition of_data (data : option (list byte)) (length : Z) (key : string)
  : Deserializer :=
  {| mData := data; mLength := length; mPos := 0; mFile := None;
     mKey := key |}.

Definition set_mPos (d : Deserializer) (p : Z) : Deserializer :=
  {| mData := mData d; mLength := mLength d; mPos := p;
     mFile := mFile d; mKey := mKey d |}.

Definition set_mFile (d : Deserializer) (f : FILE) : Deserializer :=
  {| mData := mData d; mLength := mLength d; mPos := mPos d;
     mFile := Some f; mKey := mKey d |}.

(** What [peek] and [read] hand back: the bytes stored at [target], the
    returned count, the object afterwards. *)
Record Got : Type := mkGot {
  target : list byte;
  count : Z;
  self : Deserializer
}.

Definition peek (d : Deserializer) (len : Z) : outcome Got :=
  if len =? 0 then Ok {| target := []; count := 0; self := d |}
  else
    match mData d with
    | Some data =>
        match int_add (mPos d) len with
        | Ok e =>
            if e <=? mLength d then        (* assert(mPos + len <= mLength) *)
              match memcpy data (mPos d) (to_size_t len) with
              | Ok bytes => Ok {| target := bytes; count := len; self := d |}
              | _ => Undefined
              end
            else AssertFail
        | _ => Undefined
        end
    | None =>
        match mFile d with
        | None => AssertFail                               (* assert(mFile) *)
        | Some f =>
            let '(bytes, f1) := fread len f in
            let n := Z.of_nat (length bytes) in
            Ok {| target := bytes; count := n;
                  self := set_mFile d (fseek_cur (- n) f1) |}
        end
    end.

(** [read]; the [RCT_SERIALIZER_DUMP] trace on standard output is a
    diagnostic that leaves the object alone and is not represented. *)
Definition read (d : Deserializer) (len : Z) : outcome Got :=
  if len =? 0 then Ok {| target := []; count := 0; self := d |}
  else
    match mData d with
    | Some data =>
        match int_add (mPos d) len with
        | Ok e =>
            if e <=? mLength d then        (* assert(mPos + len <= mLength) *)
              match memcpy data (mPos d) (to_size_t len) with
              | Ok bytes =>
                  Ok {| target := bytes; count := len;
                        self := set_mPos d e |}             (* mPos += len *)
              | _ => Undefined
              end
            else AssertFail
        | _ => Undefined
        end
    | None =>
        match mFile d with
        | None => AssertFail                               (* assert(mFile) *)
        | Some f =>
            let '(bytes, f1) := fread len f in
            Ok {| target := bytes; count := Z.of_nat (length bytes);
                  self := set_mFile d f1 |}
        end
    end.

Definition atEnd (d : Deserializer) : bool := mPos d =? mLength d.

(** [int pos() const]: [ftell]'s [long] converted to [int], or [mPos]. *)
Definition pos (d : Deserializer) : Z :=
  match mFile d with Some f => narrow_int (ftell f) | None => mPos d end.

(** A Deserializer built by [of_data] over [length] readable bytes (or
    over the null pointer and the length 0), at any position its reads
    can have left it. *)
Definition memory_backed (d : Deserializer) : Prop :=
  mFile d = None /\ mLength d <= INT_MAX /\ 0 <= mPos d <= mLength d /\
  match mData d with
  | Some data => mLength d = Z.of_nat (length data)
  | None => mLength d = 0
  end.

(** The [len] bytes of the data from the current position on. *)
Definition window (d : Deserializer) (len : Z) : list byte :=
  match mData d with
  | Some data => take (Z.to_nat len) (drop (Z.to_nat (mPos d)) data)
  | None => []
  end.

(** [peek] and [read] of [len] bytes agree on [d]: both return, with the
    same bytes and the count [len]; [peek] leaves the object as it was,
    [read] moves [mPos] on by [len] and changes nothing else. *)
Definition peek_read_agree (d : Deserializer) (len : Z) : Prop :=
  exists bytes,
    peek d len = Ok {| target := bytes; count := len; self := d |} /\
    read d len = Ok {| target := bytes; count := len;
                       self := set_mPos d (mPos d + len) |}.

End Deserializer.

(** ** SharedMemory.cpp *)

Module SharedMemory.

(** Values of [<sys/ipc.h>] and [<sys/shm.h>] (Linux). *)
Definition IPC_CREAT : Z := 512.         (* 01000 *)
Definition IPC_EXCL : Z := 1024.         (* 02000 *)
Definition IPC_RMID : Z := 0.
Definition IPC_SET : Z := 1.
Definition SHM_RDONLY : Z := 4096.      (* 010000 *)
Definition SHM_RND : Z := 8192.         (* 020000 *)
Definition SHM_DEST : Z := 512.         (* 01000 *)
Definition S_0600 : Z := 384.           (* 0600 *)

(** [reinterpret_cast<void*>(-1)], the failure value of [shmat], with
    64-bit addresses. *)
Definition SHMAT_FAILED : Z := 2 ^ 64 - 1.

(** The fields of [shmid_ds] that [init] fills in after [memset]. *)
Record shmid_ds : Type := mk_shmid_ds {
  shm_perm_uid : Z;
  shm_perm_mode : Z
}.

(** The calls that leave the process: System V shared memory, [getuid],
    and the error log. *)
Inductive Call : Type :=
| shmget (key size shmflg : Z)
| shmctl (shmid cmd : Z) (buf : option shmid_ds)
| shmat (shmid addr shmflg : Z)
| shmdt (addr : Z)
| getuid
| log_error.

(** A computation that makes such calls; each continues with the value
    the call returned. *)
Inductive Sys (A : Type) : Type :=
| Ret (a : A)
| Do (c : Call) (k : Z -> Sys A).

Arguments Ret {A} a.
Arguments Do {A} c k.

Fixpoint bind {A B : Type} (m : Sys A) (f : A -> Sys B) : Sys B :=
  match m with
  | Ret a => f a
  | Do c k => Do c (fun r => bind (k r) f)
  end.

Notation "x <- c ;; k" := (bind c (fun x => k))
  (at level 100, c at next level, right associativity).
Notation "'call' c" := (Do c Ret) (at level 10, c at level 9).

(** The outside world: any state, any answers. *)
Record World (W : Type) : Type := mkWorld {
  respond : W -> Call -> Z * W
}.
Arguments respond {W} _ _ _.

(** What running a computation produced: its value, the world afterwards
    and the calls made in order, each with its answer. *)
Record Ran (A W : Type) : Type := mkRan {
  value : A;
  world : W;
  trace : list (Call * Z)
}.
Arguments value {A W} _.
Arguments world {A W} _.
Arguments trace {A W} _.

Fixpoint run {A W : Type} (os : World W) (m : Sys A) (w : W) : Ran A W :=
  match m with
  | Ret a => {| value := a; world := w; trace := [] |}
  | Do c k =>
      let '(r, w1) := respond os w c in
      let rest := run os (k r) w1 in
      {| value := value rest; world := world rest;
         trace := (c, r) :: trace rest |}
  end.

(** Modelled from the spec: the enumerations [CreateMode] and [AttachFlag]
    are declared in SharedMemory.h, which is not among the sources.  The
    spec gives the create-modes attach-only, exclusive-create and
    destroy-and-recreate, and [attach(readable|writable)]; the code names
    the first and the last mode [None] and [Recreate], and tests the flag
    against [Write].  [ModeNone] stands for [None]. *)
Inductive CreateMode : Type := ModeNone | Create | Recreate.

Definition Read : Z := 1.
Definition Write : Z := 2.

Definition is_None (m : CreateMode) : bool :=
  match m with ModeNone => true | _ => false end.
Definition is_Recreate (m : CreateMode) : bool :=
  match m with Recreate => true | _ => false end.

Record SharedMemory : Type := mkSharedMemory {
  mShm : Z;
  mOwner : bool;
  mAddr : Z;
  mKey : Z;
  mSize : Z
}.

(** The member initialisers of both constructors. *)
Definition fresh : SharedMemory :=
  {| mShm := -1; mOwner := false; mAddr := 0; mKey := -1; mSize := 0 |}.

Definition set_mShm (s : SharedMemory) (v : Z) : SharedMemory :=
  {| mShm := v; mOwner := mOwner s; mAddr := mAddr s; mKey := mKey s;
     mSize := mSize s |}.

Definition set_mAddr (s : SharedMemory) (v : Z) : SharedMemory :=
  {| mShm := mShm s; mOwner := mOwner s; mAddr := v; mKey := mKey s;
     mSize := mSize s |}.

Definition creat_excl : Z := Z.lor IPC_CREAT IPC_EXCL.

(** The block of [init] under [if (mShm == -1 && mode == Recreate)]: the
    new value of [mShm]. *)
Definition init_recreate (key size : Z) : Sys Z :=
  shm <- call (shmget key size 0) ;;
  if negb (shm =? -1) then
    _ <- call (shmctl shm IPC_RMID None) ;;
    call (shmget key size creat_excl)
  else Ret shm.

(** The block of [init] under [if (mode != None)]: false when it left
    through its [return false]. *)
Definition init_set_perms (shm : Z) : Sys bool :=
  uid <- call getuid ;;
  let ds := {| shm_perm_uid := uid;
               shm_perm_mode := Z.lor S_0600 SHM_DEST |} in
  ret <- call (shmctl shm IPC_SET (Some ds)) ;;
  if ret =? -1 then
    _ <- call (shmctl shm IPC_RMID None) ;;
    Ret false
  else Ret true.

(** [init]: the value returned and the object afterwards. *)
Definition init (self : SharedMemory) (key size : Z) (mode : CreateMode)
  : Sys (bool * SharedMemory) :=
  if key =? -1 then Ret (false, self)
  else
    shm <- call (shmget key size (if is_None mode then 0 else creat_excl)) ;;
    shm <- (if (shm =? -1) && is_Recreate mode
            then init_recreate key size else Ret shm) ;;
    if shm =? -1 then Ret (false, set_mShm self shm)
    else
      ok <- (if negb (is_None mode) then init_set_perms shm else Ret true) ;;
      if negb ok then Ret (false, set_mShm self (-1))
      else
        Ret (true,
             {| mShm := shm; mOwner := negb (is_None mode);
                mAddr := mAddr self; mKey := key; mSize := size |}).

(** [attach]: the address returned and the object afterwards. *)
Definition attach (self : SharedMemory) (flag address : Z)
  : Sys (Z * SharedMemory) :=
  if negb (mAddr self =? 0) then Ret (mAddr self, self)
  else
    let flg := if negb (address =? 0) then SHM_RND else 0 in
    let flg := if Z.land flag Write =? 0 then Z.lor flg SHM_RDONLY
               else flg in
    addr <- call (shmat (mShm self) address flg) ;;
    if addr =? SHMAT_FAILED then
      _ <- call log_error ;;
      Ret (0, set_mAddr self 0)
    else Ret (addr, set_mAddr self addr).

(** [detach]: the object afterwards. *)
Definition detach (self : SharedMemory) : Sys SharedMemory :=
  if mAddr self =? 0 then Ret self
  else
    _ <- call (shmdt (mAddr self)) ;;
    Ret (set_mAddr self 0).

(** [cleanup], run by the destructor. *)
Definition cleanup (self : SharedMemory) : Sys SharedMemory :=
  self <- detach self ;;
  if negb (mShm self =? -1) && mOwner self then
    _ <- call (shmctl (mShm self) IPC_RMID None) ;;
    Ret self
  else Ret self.

(** The ways [init] in [Recreate] mode comes by its handle [shm] ([-1]:
    none), as the calls made and their answers. *)
Inductive acquired (key size : Z) : Z -> list (Call * Z) -> Prop :=
| acq_created shm :
    shm <> -1 ->
    acquired key size shm [ (shmget key size creat_excl, shm) ]
| acq_absent :
    acquired key size (-1)
      [ (shmget key size creat_excl, -1); (shmget key size 0, -1) ]
| acq_recreated old r shm :
    old <> -1 ->
    acquired key size shm
      [ (shmget key size creat_excl, -1);
        (shmget key size 0, old);
        (shmctl old IPC_RMID None, r);
        (shmget key size creat_excl, shm) ].

(** The calls by which [init] sets the permissions of [shm], answered
    [uid] and [ret]. *)
Definition set_perms (shm uid ret : Z) : list (Call * Z) :=
  [ (getuid, uid);
    (shmctl shm IPC_SET
       (Some {| shm_perm_uid := uid;
                shm_perm_mode := Z.lor S_0600 SHM_DEST |}), ret) ].

(** The three endings of [init] once the handle [shm] was come by through
    the calls [acq]. *)
Definition init_ending {W : Type} (self : SharedMemory) (key size shm : Z)
    (acq : list (Call * Z)) (r : Ran (bool * SharedMemory) W) : Prop :=
  (shm = -1 /\ trace r = acq /\ value r = (false, set_mShm self (-1)))
  \/
  (shm <> -1 /\ exists uid ret,
     ret <> -1 /\ trace r = acq ++ set_perms shm uid ret /\
     value r = (true, {| mShm := shm; mOwner := true; mAddr := mAddr self;
                         mKey := key; mSize := size |}))
  \/
  (shm <> -1 /\ exists uid r',
     trace r = acq ++ set_perms shm uid (-1)
                   ++ [ (shmctl shm IPC_RMID None, r') ] /\
     value r = (false, set_mShm self (-1))).

End SharedMemory.

(** ** A System V segment table (an instance of the outside world) *)

Module SysV.

Import SharedMemory.

(** A segment; its identifier is its index in the table. [seg_key] is
    [None] once the segment is marked for removal. *)
Record Seg : Type := mkSeg {
  seg_key : option Z;
  seg_size : Z;
  seg_uid : Z;
  seg_mode : Z
}.

Record Kernel : Type := mkKernel {
  segs : list Seg;
  euid : Z
}.

Definition has_key (key : Z) (s : Seg) : bool :=
  match seg_key s with Some k => k =? key | None => false end.

Fixpoint find_key (key : Z) (l : list Seg) (i : Z) : option (Z * Seg) :=
  match l with
  | [] => None
  | s :: l' => if has_key key s then Some (i, s) else find_key key l' (i + 1)
  end.

Definition respond (w : Kernel) (c : Call) : Z * Kernel :=
  match c with
  | shmget key size flg =>
      match find_key key (segs w) 0 with
      | Some (i, s) =>
          if negb (Z.land flg creat_excl =? 0)
          then (-1, w)                                          (* EEXIST *)
          else if seg_size s <? size then (-1, w)               (* EINVAL *)
          else (i, w)
      | None =>
          if Z.land flg IPC_CREAT =? 0 then (-1, w)             (* ENOENT *)
          else
            (Z.of_nat (length (segs w)),
             {| segs := segs w ++
                  [ {| seg_key := Some key; seg_size := size;
                       seg_uid := euid w; seg_mode := Z.land flg 511 |} ];
                euid := euid w |})
      end
  | shmctl id cmd buf =>
      match segs w !! Z.to_nat id with
      | Some s =>
          if (id <? 0) || negb (seg_uid s =? euid w) then (-1, w) (* EPERM *)
          else if cmd =? IPC_RMID then
            (0, {| segs := <[Z.to_nat id :=
                       {| seg_key := None; seg_size := seg_size s;
                          seg_uid := seg_uid s; seg_mode := seg_mode s |}]>
                     (segs w);
                   euid := euid w |})
          else
            match buf with
            | Some ds =>
                (0, {| segs := <[Z.to_nat id :=
                           {| seg_key := seg_key s; seg_size := seg_size s;
                              seg_uid := shm_perm_uid ds;
                              seg_mode := shm_perm_mode ds |}]> (segs w);
                       euid := euid w |})
            | None => (-1, w)
            end
      | None => (-1, w)                                         (* EINVAL *)
      end
  | shmat id addr flg =>
      match segs w !! Z.to_nat id with
      | Some s => if id <? 0 then (SHMAT_FAILED, w)
                  else (0x7f0000000000 + 0x1000 * id, w)
      | None => (SHMAT_FAILED, w)
      end
  | shmdt addr => (0, w)
  | getuid => (euid w, w)
  | log_error => (0, w)
  end.

Definition kernel : World Kernel := {| SharedMemory.respond := respond |}.

(** User 1000, with one segment of 64 bytes under key 42. *)
Definition one_segment : Kernel :=
  {| segs := [ {| seg_key := Some 42; seg_size := 64; seg_uid := 1000;
                  seg_mode := S_0600 |} ];
     euid := 1000 |}.

(** User 1000, with one segment of 64 bytes under key 42 that belongs to
    user 0. *)
Definition foreign_segment : Kernel :=
  {| segs := [ {| seg_key := Some 42; seg_size := 64; seg_uid := 0;
                  seg_mode := S_0600 |} ];
     euid := 1000 |}.

(** C7's sentence on destroy-and-recreate, for one state of the segment
    table, one key and one size: if a segment [old] is there under the
    key (which is why exclusive creation fails), then once [init] has
    run that segment is marked for removal and another segment is there
    under the key in its place. *)
Definition recreated_in_place (w : Kernel) (key size : Z) : Prop :=
  forall old s,
    find_key key (segs w) 0 = Some (old, s) ->
    (exists s',
       segs (world (run kernel (init fresh key size Recreate) w))
         !! Z.to_nat old = Some s' /\
       seg_key s' = None) /\
    (exists new s'',
       find_key key
         (segs (world (run kernel (init fresh key size Recreate) w))) 0
       = Some (new, s'') /\
       new <> old).

End SysV.

(** ** EventLoop.h *)

Module EventLoop.

(** [std::this_thread::get_id()]. *)
Definition ThreadId : Type := nat.

(** The address of a heap object. *)
Definition Ptr : Type := positive.

(** [enum Flag] ([FlagNone] stands for [None]). *)
Definition FlagNone : Z := 0x0.
Definition MainEventLoop : Z := 0x1.
Definition EnableSigIntHandler : Z := 0x2.

(** [enum Mode]. *)
Definition SocketRead : Z := 0x1.
Definition SocketWrite : Z := 0x2.
Definition SocketOneShot : Z := 0x4.
Definition SocketError : Z := 0x8.

(** The anonymous enumeration of [exec]'s codes. *)
Definition Success : Z := 0x100.
Definition GeneralError : Z := 0x200.
Definition Timeout : Z := 0x400.

(** A [std::function] handed in by the user, as far as the loop is
    concerned: a name for the code, and the [quit(code)] it requests when
    run, if any. *)
Record Callback : Type := mkCallback {
  cb_name : nat;
  cb_quit : option Z
}.

(** [class Event] and its two subclasses: [SignalEvent] holds a callable
    with its arguments, which its [exec] applies; [DeleteLaterEvent<T>]
    the pointer [del], which its [exec] deletes. *)
Inductive Event : Type :=
| SignalEvent (obj : Callback)
| DeleteLaterEvent (del : Ptr).

(** Modelled from the spec: [struct EventCallbackData] is only declared
    in EventLoop.h.  The spec gives a socket registration a watched-mode
    mask and a callback, and a timer registration a next-expiration
    timestamp, a period, a repeat flag and a callback. *)
Inductive EventCallbackData : Type :=
| SocketData (mode : Z) (func : Callback)
| TimerData (expires period : Z) (repeat : bool) (func : Callback).

(** Modelled from the spec: the state behind the poll handle
    [event_base *eventBase].  [event_base] is a type of the poll library,
    and the class has no member for the queue (the source has
    [std::queue<Event*> events] commented out) nor for the run state; the
    spec gives the loop a deferred-call queue that is FIFO across all
    producers, a run-state and a quit code. *)
Record event_base : Type := mk_event_base {
  queued : list Event;
  quit_requested : bool;
  quit_code : Z
}.

(** The data members of [class EventLoop]; the mutexes are left out (the
    calls are taken one at a time), and so is the handle [sigEvent]. *)
Record EventLoop : Type := mkEventLoop {
  threadId : ThreadId;
  eventBase : event_base;
  eventCbMap : gmap Z EventCallbackData;
  nextId : Z;                                                (* uint32_t *)
  flgs : Z
}.

Definition events (l : EventLoop) : list Event := queued (eventBase l).
Definition quitRequested (l : EventLoop) : bool :=
  quit_requested (eventBase l).
Definition quitCode (l : EventLoop) : Z := quit_code (eventBase l).

Definition set_eventCbMap (m : gmap Z EventCallbackData) (l : EventLoop)
  : EventLoop :=
  {| threadId := threadId l; eventBase := eventBase l; eventCbMap := m;
     nextId := nextId l; flgs := flgs l |}.

Definition set_nextId (n : Z) (l : EventLoop) : EventLoop :=
  {| threadId := threadId l; eventBase := eventBase l;
     eventCbMap := eventCbMap l; nextId := n; flgs := flgs l |}.

Definition set_eventBase (b : event_base) (l : EventLoop) : EventLoop :=
  {| threadId := threadId l; eventBase := b; eventCbMap := eventCbMap l;
     nextId := nextId l; flgs := flgs l |}.

Definition set_events (q : list Event) (l : EventLoop) : EventLoop :=
  set_eventBase {| queued := q; quit_requested := quitRequested l;
                   quit_code := quitCode l |} l.

(** *** Identifiers *)

(** Conversion of a [uint32_t] to [int]. *)
Definition uint32_to_int (u : Z) : Z :=
  if u <? 2 ^ 31 then u else u - 2 ^ 32.

(** [int fdToId(int fd) { return -fd; }] *)
Definition fdToId (fd : Z) : Z := - fd.

(** [int generateId() { return nextId++; }]: the value returned and the
    loop afterwards; the increment of a [uint32_t] wraps round. *)
Definition generateId (l : EventLoop) : Z * EventLoop :=
  (uint32_to_int (nextId l), set_nextId ((nextId l + 1) mod 2 ^ 32) l).

(** The counter holds a [uint32_t]. *)
Definition nextId_ok (l : EventLoop) : Prop := 0 <= nextId l < 2 ^ 32.

(** One call of [registerTimer(func, timeout, flags)], made at time
    [now]. *)
Record TimerRequest : Type := mkTimerRequest {
  req_func : Callback;
  req_timeout : Z;
  req_flags : Z;
  req_now : Z
}.

(** Modelled from the spec: the flags of Timer.h, which is not among the
    sources; the spec has them select single-shot or repeating. *)
Definition SingleShot : Z := 0x1.

(** Modelled from the spec: the body of [registerTimer] is not among the
    sources (EventLoop.h declares it).  It allocates the identifier, for
    which the class has [generateId], and schedules the first expiration
    at now + timeout, single-shot or repeating by the flags. *)
Definition registerTimer (r : TimerRequest) (l : EventLoop)
  : Z * EventLoop :=
  let '(id, l1) := generateId l in
  let data := TimerData (req_now r + req_timeout r) (req_timeout r)
                (Z.land (req_flags r) SingleShot =? 0) (req_func r) in
  (id, set_eventCbMap (<[id := data]> (eventCbMap l1)) l1).

(** The identifiers a sequence of [registerTimer] calls returns, and the
    loop afterwards. *)
Fixpoint registerTimers (rs : list TimerRequest) (l : EventLoop)
  : list Z * EventLoop :=
  match rs with
  | [] => ([], l)
  | r :: rs' =>
      let '(id, l1) := registerTimer r l in
      let '(ids, l2) := registerTimers rs' l1 in
      (id :: ids, l2)
  end.

(** Each identifier of the list is below the next one. *)
Fixpoint increasing (ids : list Z) : Prop :=
  match ids with
  | [] => True
  | a :: rest =>
      match rest with
      | [] => True
      | b :: _ => a < b /\ increasing rest
      end
  end.

(** A loop of thread 1 with nothing registered and the counter at [n]. *)
Definition loop_at (n : Z) : EventLoop :=
  {| threadId := 1%nat;
     eventBase := {| queued := []; quit_requested := false;
                     quit_code := 0 |};
     eventCbMap := ∅; nextId := n; flgs := FlagNone |}.

(** A repeating timer of 50 ms asked for at time 0. *)
Definition a_timer : TimerRequest :=
  {| req_func := {| cb_name := 0%nat; cb_quit := None |};
     req_timeout := 50; req_flags := 0; req_now := 0 |}.

(** *** The process: shared and weak pointers to loops *)

(** The control block of a [std::shared_ptr<EventLoop>]: the number of
    shared owners, and the object, which is destroyed when that number
    reaches zero. *)
Record Control : Type := mkControl {
  strong : nat;
  object : EventLoop
}.

(** A [shared_ptr] or [weak_ptr] value: the control block it refers to,
    or none when empty. *)
Definition SharedPtr : Type := option Ptr.
Definition WeakPtr : Type := option Ptr.

(** Modelled from the spec: the field [localLoop], the Registry's weak
    association from a thread to the loop bound to it (what [eventLoop()]
    consults is not among the sources).  The other fields are the static
    member [mainLoop], the control blocks, the objects destroyed by
    [delete] so far, and the messages given to [error]. *)
Record Process : Type := mkProcess {
  loops : gmap Ptr Control;
  mainLoop : WeakPtr;
  localLoop : gmap ThreadId Ptr;
  deleted : list Ptr;
  errors : list string
}.

Definition set_loops (m : gmap Ptr Control) (st : Process) : Process :=
  {| loops := m; mainLoop := mainLoop st; localLoop := localLoop st;
     deleted := deleted st; errors := errors st |}.

Definition set_mainLoop (w : WeakPtr) (st : Process) : Process :=
  {| loops := loops st; mainLoop := w; localLoop := localLoop st;
     deleted := deleted st; errors := errors st |}.

(** [use_count()] of the control block at [p]. *)
Definition use_count (st : Process) (p : Ptr) : nat :=
  match loops st !! p with Some c => strong c | None => 0%nat end.

(** [weak_ptr::lock()]: a new shared owner when the object is alive, an
    empty pointer otherwise. *)
Definition lock (w : WeakPtr) (st : Process) : SharedPtr * Process :=
  match w with
  | None => (None, st)
  | Some p =>
      match loops st !! p with
      | Some c =>
          if (0 <? strong c)%nat then
            (Some p,
             set_loops (<[p := {| strong := S (strong c);
                                  object := object c |}]> (loops st)) st)
          else (None, st)
      | None => (None, st)
      end
  end.

(** The destructor of a [shared_ptr]: one owner fewer. *)
Definition release (s : SharedPtr) (st : Process) : Process :=
  match s with
  | None => st
  | Some p =>
      match loops st !! p with
      | Some c =>
          set_loops (<[p := {| strong := pred (strong c);
                               object := object c |}]> (loops st)) st
      | None => st
      end
  end.

(** [mainEventLoop()]: [mainLoop.lock()], under [mainMutex]. *)
Definition mainEventLoop (st : Process) : SharedPtr * Process :=
  lock (mainLoop st) st.

(** [isMainThread()], called on thread [tid].  Both temporaries live to
    the end of the [return] statement. *)
Definition isMainThread (tid : ThreadId) (st : Process)
  : outcome (bool * Process) :=
  let '(t1, st1) := mainEventLoop st in
  match t1 with
  | None => Ok (false, st1)
  | Some _ =>
      let '(t2, st2) := mainEventLoop st1 in
      match t2 with
      | Some p2 =>
          match loops st2 !! p2 with
          | Some c =>
              Ok (Nat.eqb tid (threadId (object c)),
                  release t1 (release t2 st2))
          | None => Undefined
          end
      | None => Undefined                  (* [->] on an empty pointer *)
      end
  end.

(** [error(err)]. *)
Definition error (err : string) (st : Process) : Process :=
  {| loops := loops st; mainLoop := mainLoop st; localLoop := localLoop st;
     deleted := deleted st; errors := errors st ++ [err] |}.

(** Modelled from the spec: the body of [eventLoop()] is not among the
    sources.  It returns the instance bound to the calling thread if
    running there, else falls back to [mainEventLoop()]; the binding
    being weak, an instance is there when the binding yields a live
    one. *)
Definition eventLoop (tid : ThreadId) (st : Process) : SharedPtr * Process :=
  match lock (localLoop st !! tid) st with
  | (Some p, st1) => (Some p, st1)
  | (None, _) => mainEventLoop st
  end.

(** Modelled from the spec: the body of [post(Event *event)] is not among the
    sources.  It enqueues the event at the back of the loop's queue. *)
Definition post (e : Event) (l : EventLoop) : EventLoop :=
  set_events (events l ++ [e]) l.

(** [loop->post(e)] through a shared pointer. *)
Definition post_to (p : Ptr) (e : Event) (st : Process) : Process :=
  match loops st !! p with
  | Some c =>
      set_loops (<[p := {| strong := strong c;
                           object := post e (object c) |}]> (loops st)) st
  | None => st
  end.

(** [deleteLater(del)], called on thread [tid]; the shared pointer [loop]
    goes out of scope at the end of the [if]. *)
Definition deleteLater (tid : ThreadId) (del : Ptr) (st : Process)
  : Process :=
  let '(loop, st1) := eventLoop tid st in
  match loop with
  | Some p => release loop (post_to p (DeleteLaterEvent del) st1)
  | None => error "No event loop!" st1
  end.

(** The queue of the loop at [p]. *)
Definition events_of (st : Process) (p : Ptr) : list Event :=
  match loops st !! p with Some c => events (object c) | None => [] end.

(** The loop at [p] is alive: it has a shared owner. *)
Definition alive (st : Process) (p : Ptr) : Prop :=
  (0 < use_count st p)%nat.

(** [Event::exec()] on the two subclasses, as far as the heap goes:
    [delete del] for a [DeleteLaterEvent]. *)
Definition Event_exec (e : Event) (st : Process) : Process :=
  match e with
  | SignalEvent _ => st
  | DeleteLaterEvent del =>
      {| loops := loops st; mainLoop := mainLoop st;
         localLoop := localLoop st; deleted := deleted st ++ [del];
         errors := errors st |}
  end.

(** A process of two live loops: the main loop of thread 1 at address 10
    and the loop of thread 2 at address 20; thread 3 has none. *)
Definition two_loops : Process :=
  {| loops := <[10%positive := {| strong := 1; object := loop_at 0 |}]>
                (<[20%positive :=
                     {| strong := 1;
                        object :=
                          {| threadId := 2%nat;
                             eventBase := eventBase (loop_at 0);
                             eventCbMap := ∅; nextId := 0;
                             flgs := FlagNone |} |}]>
                   ∅);
     mainLoop := Some 10%positive;
     localLoop := <[1%nat := 10%positive]> (<[2%nat := 20%positive]> ∅);
     deleted := [];
     errors := [] |}.

(** A process without any loop. *)
Definition no_loops : Process :=
  {| loops := ∅; mainLoop := None; localLoop := ∅; deleted := [];
     errors := [] |}.

(** *** exec

    The bodies of [exec], [quit], [registerSocket] and of the dispatch
    functions are not among the sources: EventLoop.h declares them.  What
    follows models them from the spec, definition by definition. *)

(** Modelled from the spec: what another thread did to the loop (the
    body of [post] and [quit] being absent), under the loop's lock: the
    spec lets any thread post and quit. *)
Inductive Foreign : Type :=
| ForeignPost (tid : ThreadId) (e : Event)
| ForeignQuit (tid : ThreadId) (code : Z).

(** Modelled from the spec: what one call of the poll primitive (absent
    from the sources) brought: a failure, or the time at which it
    returned, the requests of other threads in the order in which they
    took the lock, and the ready descriptors with their fired bits. *)
Inductive Polled : Type :=
| PollFailed
| PollReturned (now : Z) (arrived : list Foreign) (ready : list (Z * Z)).

(** A callback that ran. *)
Inductive Fired : Type :=
| FiredDeferred (e : Event)
| FiredTimer (id : Z)
| FiredSocket (fd bits : Z).

Definition is_deferred (f : Fired) : bool :=
  match f with FiredDeferred _ => true | _ => false end.
Definition is_timer (f : Fired) : bool :=
  match f with FiredTimer _ => true | _ => false end.
Definition is_socket (f : Fired) : bool :=
  match f with FiredSocket _ _ => true | _ => false end.

(** The loop inside [exec], with the callbacks run so far, oldest first. *)
Record Running : Type := mkRunning {
  loop : EventLoop;
  log : list Fired
}.

(** Modelled from the spec: the body of [quit(code)] is absent; it sets
    the run-state to quitting and stores the code, a later call
    overwriting the code. *)
Definition quit (code : Z) (l : EventLoop) : EventLoop :=
  set_eventBase {| queued := events l; quit_requested := true;
                   quit_code := code |} l.

(** Running user code [f] for the callback recorded as [what]: the
    callback joins the log, and its [quit], if any, is carried out. *)
Definition invoke (f : Callback) (what : Fired) (r : Running) : Running :=
  {| loop := match cb_quit f with
             | Some code => quit code (loop r)
             | None => loop r
             end;
     log := log r ++ [what] |}.

(** Modelled from the spec: applying what another thread asked for ([post]
    and [quit], bodies absent). *)
Definition apply_foreign (l : EventLoop) (f : Foreign) : EventLoop :=
  match f with
  | ForeignPost _ e => post e l
  | ForeignQuit _ code => quit code l
  end.

(** [Event::exec()] of a queued event inside the loop: the bound call of
    a [SignalEvent] runs; a [DeleteLaterEvent] deletes its pointer (see
    [Event_exec]) and asks nothing of the loop. *)
Definition exec_event (e : Event) (r : Running) : Running :=
  match e with
  | SignalEvent f => invoke f (FiredDeferred e) r
  | DeleteLaterEvent _ =>
      {| loop := loop r; log := log r ++ [FiredDeferred e] |}
  end.

(** Modelled from the spec: step 3 of an iteration of [exec] (body
    absent): drain the deferred-call queue completely, executing and
    discarding each entry in FIFO order. *)
Fixpoint drain_from (q : list Event) (r : Running) : Running :=
  match q with
  | [] => r
  | e :: q' =>
      drain_from q'
        (exec_event e {| loop := set_events q' (loop r); log := log r |})
  end.

(** Modelled from the spec: step 3 on the queue as it stands. *)
Definition drain (r : Running) : Running := drain_from (events (loop r)) r.

Definition is_expired (now : Z) (entry : Z * EventCallbackData) : bool :=
  match snd entry with
  | TimerData expires _ _ _ => expires <=? now
  | SocketData _ _ => false
  end.

(** Modelled from the spec: the timers whose expiration has passed (the
    timer dispatch being absent from the sources), in the order of the
    table. *)
Definition expired (now : Z) (l : EventLoop)
  : list (Z * EventCallbackData) :=
  List.filter (is_expired now) (map_to_list (eventCbMap l)).

(** Modelled from the spec: step 4 of an iteration of [exec] (body
    absent) for one timer: a repeating timer is rescheduled at its
    expiration plus its period and a single-shot one removed, before the
    callback runs. *)
Definition fire_timer (r : Running) (entry : Z * EventCallbackData)
  : Running :=
  match entry with
  | (id, TimerData expires period repeat f) =>
      let m := eventCbMap (loop r) in
      let m' := if repeat
                then <[id := TimerData (expires + period) period repeat f]> m
                else delete id m in
      invoke f (FiredTimer id)
        {| loop := set_eventCbMap m' (loop r); log := log r |}
  | (_, SocketData _ _) => r
  end.

(** Modelled from the spec: step 4, all timers whose expiration has
    passed. *)
Definition fire_timers (now : Z) (r : Running) : Running :=
  foldl fire_timer r (expired now (loop r)).

(** Modelled from the spec: step 5 of an iteration of [exec] (body
    absent) for one ready descriptor: the callback of a registered
    descriptor with fired bits runs, a one-shot registration removed
    first. *)
Definition dispatch_socket (r : Running) (fired : Z * Z) : Running :=
  let '(fd, bits) := fired in
  match eventCbMap (loop r) !! fdToId fd with
  | Some (SocketData mode f) =>
      if bits =? 0 then r
      else
        let m := eventCbMap (loop r) in
        let m' := if Z.land mode SocketOneShot =? 0 then m
                  else delete (fdToId fd) m in
        invoke f (FiredSocket fd bits)
          {| loop := set_eventCbMap m' (loop r); log := log r |}
  | _ => r
  end.

(** Modelled from the spec: step 5, every ready descriptor. *)
Definition dispatch_sockets (ready : list (Z * Z)) (r : Running) : Running :=
  foldl dispatch_socket r ready.

(** Modelled from the spec: steps 1 to 5 of one iteration of [exec]
    (body absent) whose poll returned: what other threads asked for is
    applied, then deferred calls, then timers, then sockets. *)
Definition iteration (now : Z) (arrived : list Foreign)
    (ready : list (Z * Z)) (r : Running) : Running :=
  let r1 := {| loop := foldl apply_foreign (loop r) arrived;
               log := log r |} in
  dispatch_sockets ready (fire_timers now (drain r1)).

(** Modelled from the spec: how a call of [exec] (body absent) stands:
    it came back with [code] (and the quit code, with [Success]); or it
    was called on a thread that does not own the loop, reported the error
    and returned; or the poll primitive has not returned again. *)
Inductive ExecOutcome : Type :=
| Returned (code : Z) (quit_code : option Z) (r : Running)
| WrongThread
| Blocked (r : Running).

(** Modelled from the spec: the timeout given to [exec] (body absent) at
    time [start] has elapsed at [now]; a negative timeout never does. *)
Definition elapsed (start timeout now : Z) : bool :=
  (0 <=? timeout) && (start + timeout <=? now).

(** Modelled from the spec: the iterations of [exec] (body absent), step 6
    after each: [Success] with the stored code if quit was requested,
    [Timeout] if the timeout elapsed with no quit; a failure of the poll
    primitive returns [GeneralError]. *)
Fixpoint exec_from (start timeout : Z) (script : list Polled) (r : Running)
  : ExecOutcome :=
  match script with
  | [] => Blocked r
  | PollFailed :: _ => Returned GeneralError None r
  | PollReturned now arrived ready :: rest =>
      let r1 := iteration now arrived ready r in
      if quitRequested (loop r1)
      then Returned Success (Some (quitCode (loop r1))) r1
      else if elapsed start timeout now then Returned Timeout None r1
      else exec_from start timeout rest r1
  end.

(** Modelled from the spec: [exec(timeout)] (body absent) called on
    thread [tid] at time [start], the poll primitive answering as
    [script] says; it must run on the owning thread. *)
Definition exec (tid : ThreadId) (timeout start : Z) (script : list Polled)
    (l : EventLoop) : ExecOutcome :=
  if negb (Nat.eqb tid (threadId l)) then WrongThread
  else exec_from start timeout script {| loop := l; log := [] |}.

(** The events other threads posted, in the order they took the lock. *)
Definition posted (arrived : list Foreign) : list Event :=
  omap (fun f => match f with
                 | ForeignPost _ e => Some e
                 | ForeignQuit _ _ => None
                 end) arrived.

(** Modelled from the spec: the body of [registerSocket(fd, mode, func)]
    is absent; it adds the descriptor with its mode mask and callback,
    under the key the class has [fdToId] for. *)
Definition registerSocket (fd mode : Z) (func : Callback) (l : EventLoop)
  : EventLoop :=
  set_eventCbMap (<[fdToId fd := SocketData mode func]> (eventCbMap l)) l.

(** A loop of thread 1 with a single-shot timer due at 50 under
    identifier 1, descriptor 4 watched for reading, and one bound call in
    its queue. *)
Definition busy_loop : EventLoop :=
  post (SignalEvent {| cb_name := 7%nat; cb_quit := None |})
    (registerSocket 4 SocketRead {| cb_name := 8%nat; cb_quit := None |}
       (snd (registerTimer
               {| req_func := {| cb_name := 9%nat; cb_quit := None |};
                  req_timeout := 50; req_flags := SingleShot;
                  req_now := 0 |}
               (loop_at 1)))).

End EventLoop.

(** ** The stream operators of Serializer.h *)

Module Operators.

(** Sequencing of calls: the first failed assertion or undefined
    operation ends the program. *)
Definition and_then {A C : Type} (m : outcome A) (f : A -> outcome C)
  : outcome C :=
  match m with
  | Ok a => f a
  | AssertFail => AssertFail
  | Undefined => Undefined
  end.

Notation "'let!' x ':=' c 'in' k" := (and_then c (fun x => k))
  (at level 10, x pattern, c at level 100, k at level 200).

(** Conversion of a [size_t] or [int] to [uint32_t], and of an unsigned
    value to [int] (modulo 2^32, as the compilers of the supported
    targets do). *)
Definition to_uint32 (n : Z) : Z := n mod 2 ^ 32.
Definition to_int (n : Z) : Z := (n + 2 ^ 31) mod 2 ^ 32 - 2 ^ 31.

Definition byte_of (z : Z) : byte :=
  match Byte.of_N (Z.to_N (z mod 256)) with
  | Some b => b
  | None => x00
  end.

Definition byte_val (b : byte) : Z := Z.of_N (Byte.to_N b).

(** The [n] bytes of an unsigned integer in memory, least significant
    first (the targets are little-endian), and the integer a run of bytes
    holds. *)
Fixpoint le_bytes (n : nat) (v : Z) : list byte :=
  match n with
  | O => []
  | S n' => byte_of v :: le_bytes n' (v / 256)
  end.

Fixpoint le_value (bs : list byte) : Z :=
  match bs with
  | [] => 0
  | b :: bs' => byte_val b + 256 * le_value bs'
  end.

(** [string.resize(n)] and [list.resize(n)]: cut to [n] elements, or
    filled up with the value-initialised element. *)
Definition resize {A : Type} (n : Z) (fill : A) (l : list A) : list A :=
  take (Z.to_nat n) l ++ replicate (Z.to_nat n - length l) fill.

(** The bytes [found] stored over the beginning of the object whose
    bytes were [old]. *)
Definition overwrite (found old : list byte) : list byte :=
  found ++ drop (length found) old.

(** Runs of [n] bytes. *)
Fixpoint chunks (fuel : nat) (n : nat) (bs : list byte)
  : list (list byte) :=
  match fuel with
  | O => []
  | S fuel' =>
      match bs with
      | [] => []
      | _ => take n bs :: chunks fuel' n (drop n bs)
      end
  end.

(** What the templates know of a type [T]: [FixedSize<T>::value], the
    object representation of a value and the value an object
    representation holds (for the types of [DECLARE_NATIVE_TYPE]), the
    value-initialised [T], and its two operators. *)
Class Serial (T : Type) : Type := {
  FixedSize : Z;
  raw : T -> list byte;
  unraw : list byte -> T;
  init_value : T;
  shl : forall (B : Type), Serializer.Buffer B ->
        T -> Serializer.Serializer B -> outcome (Serializer.Serializer B);
  shr : T -> Deserializer.Deserializer ->
        outcome (T * Deserializer.Deserializer)
}.

(** The [operator<<] of [DECLARE_NATIVE_TYPE]: [sizeof(type)] bytes of
    the object; what [write] returns is dropped. *)
Definition put_native {B : Type} {H : Serializer.Buffer B}
    (size : Z) (object : list byte) (s : Serializer.Serializer B)
  : outcome (Serializer.Serializer B) :=
  let! w := Serializer.write s object size in
  Ok (Serializer.after w).

(** The [operator>>] of [DECLARE_NATIVE_TYPE] on an object whose bytes
    are [object]: the bytes of the object afterwards. *)
Definition get_native (size : Z) (object : list byte)
    (d : Deserializer.Deserializer)
  : outcome (list byte * Deserializer.Deserializer) :=
  let! g := Deserializer.read d size in
  Ok (overwrite (Deserializer.target g) object, Deserializer.self g).

(** The same on a local variable declared without an initialiser
    ([uint32_t size; s >> size;]): its value is determinate only if all
    its bytes were read. *)
Definition get_local (size : Z) (d : Deserializer.Deserializer)
  : outcome (list byte * Deserializer.Deserializer) :=
  let! g := Deserializer.read d size in
  if Z.of_nat (length (Deserializer.target g)) =? size
  then Ok (Deserializer.target g, Deserializer.self g)
  else Undefined.

(** [DECLARE_NATIVE_TYPE(uint32_t)]. *)
#[export] Instance uint32_t : Serial Z := {
  FixedSize := 4;
  raw v := le_bytes 4 v;
  unraw bs := le_value bs;
  init_value := 0;
  shl B H v s := put_native 4 (le_bytes 4 v) s;
  shr v d :=
    let! (bs, d1) := get_native 4 (le_bytes 4 v) d in Ok (le_value bs, d1)
}.

(** [DECLARE_NATIVE_TYPE(unsigned char)]. *)
#[export] Instance unsigned_char : Serial byte := {
  FixedSize := 1;
  raw c := [c];
  unraw bs := match bs with c :: _ => c | [] => x00 end;
  init_value := x00;
  shl B H c s := put_native 1 [c] s;
  shr c d :=
    let! (bs, d1) := get_native 1 [c] d in
    Ok (match bs with c' :: _ => c' | [] => x00 end, d1)
}.

(** [uint32_t size; s >> size;] *)
Definition get_size (d : Deserializer.Deserializer)
  : outcome (Z * Deserializer.Deserializer) :=
  let! (bs, d1) := get_local 4 d in Ok (le_value bs, d1).

(** [String]: its characters. *)
Definition String : Type := list byte.

(** [Serializer::write(const String &string)]. *)
Definition write_String {B : Type} {H : Serializer.Buffer B}
    (s : Serializer.Serializer B) (string : String)
  : outcome (Serializer.Written B) :=
  Serializer.write s string (to_int (Z.of_nat (length string))).

(** [operator<<(Serializer &, const String &)]. *)
Definition put_String {B : Type} {H : Serializer.Buffer B}
    (string : String) (s : Serializer.Serializer B)
  : outcome (Serializer.Serializer B) :=
  let size := to_uint32 (Z.of_nat (length string)) in
  let! s1 := put_native 4 (le_bytes 4 size) s in
  if Z.of_nat (length string) =? 0 then Ok s1
  else
    let! w := Serializer.write s1 string
                (to_int (Z.of_nat (length string))) in
    Ok (Serializer.after w).

(** [operator<<(Serializer &, const Path &)]: as for [String], but the
    length handed to [write] is the truncated [size]. *)
Definition put_Path {B : Type} {H : Serializer.Buffer B}
    (path : String) (s : Serializer.Serializer B)
  : outcome (Serializer.Serializer B) :=
  let size := to_uint32 (Z.of_nat (length path)) in
  let! s1 := put_native 4 (le_bytes 4 size) s in
  if size =? 0 then Ok s1
  else
    let! w := Serializer.write s1 path (to_int size) in
    Ok (Serializer.after w).

(** [operator>>(Deserializer &, String &)], and the one for [Path], which
    has the same body. *)
Definition get_String (string : String) (d : Deserializer.Deserializer)
  : outcome (String * Deserializer.Deserializer) :=
  let! (size, d1) := get_size d in
  if size =? 0 then Ok (resize size x00 string, d1)
  else
    let! g := Deserializer.read d1 (to_int size) in
    Ok (overwrite (Deserializer.target g) (resize size x00 string),
        Deserializer.self g).

#[export] Instance String_Serial : Serial String := {
  FixedSize := 0;
  raw _ := [];
  unraw _ := [];
  init_value := [];
  shl B H := put_String;
  shr := get_String
}.

Section Templates.
Context {T : Type} {ST : Serial T}.

(** [for (uint32_t i=0; i<size; ++i) s << list.at(i);] over the
    elements the loop reaches. *)
Fixpoint put_each {B : Type} {H : Serializer.Buffer B}
    (l : list T) (s : Serializer.Serializer B)
  : outcome (Serializer.Serializer B) :=
  match l with
  | [] => Ok s
  | x :: l' => let! s1 := shl B H x s in put_each l' s1
  end.

(** [for (uint32_t i=0; i<size; ++i) s >> list[i];] *)
Fixpoint get_each (l : list T) (d : Deserializer.Deserializer)
  : outcome (list T * Deserializer.Deserializer) :=
  match l with
  | [] => Ok ([], d)
  | x :: l' =>
      let! (x', d1) := shr x d in
      let! (l'', d2) := get_each l' d1 in
      Ok (x' :: l'', d2)
  end.

(** [list.data()]: the elements' object representations in a row. *)
Definition data_of (l : list T) : list byte := concat (map raw l).

(** [operator<<(Serializer &, const List<T> &)]. *)
Definition put_List {B : Type} {H : Serializer.Buffer B}
    (l : list T) (s : Serializer.Serializer B)
  : outcome (Serializer.Serializer B) :=
  let size := to_uint32 (Z.of_nat (length l)) in
  let! s1 := put_native 4 (le_bytes 4 size) s in
  if Z.of_nat (length l) =? 0 then Ok s1
  else if negb (FixedSize =? 0) then
    let! w := Serializer.write s1 (data_of l)
                (to_int (to_uint32 (FixedSize * size))) in
    Ok (Serializer.after w)
  else put_each (take (Z.to_nat size) l) s1.

(** [operator>>(Deserializer &, List<T> &)]. *)
Definition get_List (l : list T) (d : Deserializer.Deserializer)
  : outcome (list T * Deserializer.Deserializer) :=
  let! (size, d1) := get_size d in
  let l1 := resize size init_value l in
  if size =? 0 then Ok (l1, d1)
  else if negb (FixedSize =? 0) then
    let! g := Deserializer.read d1
                (to_int (to_uint32 (FixedSize * size))) in
    Ok (map unraw
          (chunks (length l1) (Z.to_nat FixedSize)
             (overwrite (Deserializer.target g) (data_of l1))),
        Deserializer.self g)
  else get_each l1 d1.

End Templates.

#[export] Instance List_Serial {T : Type} {ST : Serial T}
  : Serial (list T) := {
  FixedSize := 0;
  raw _ := [];
  unraw _ := [];
  init_value := [];
  shl B H := put_List;
  shr := get_List
}.

(** [operator<<] and [operator>>] of [std::pair<First, Second>]. *)
#[export] Instance pair_Serial {A C : Type} {SA : Serial A} {SC : Serial C}
  : Serial (A * C) := {
  FixedSize := 0;
  raw _ := [];
  unraw _ := (init_value, init_value);
  init_value := (init_value, init_value);
  shl B H p s := let! s1 := shl B H (fst p) s in shl B H (snd p) s1;
  shr p d :=
    let! (a, d1) := shr (fst p) d in
    let! (c, d2) := shr (snd p) d1 in
    Ok ((a, c), d2)
}.

(** A Serializer writing into a string that holds [out] already. *)
Definition to_string (out : list byte)
  : Serializer.Serializer Serializer.StringBuffer :=
  Serializer.make (Serializer.mkStringBuffer out).

(** The Deserializer is over readable memory that holds [bytes] at the
    current position, followed by [rest]. *)
Definition holds (d : Deserializer.Deserializer) (bytes rest : list byte)
  : Prop :=
  Deserializer.memory_backed d /\
  exists data,
    Deserializer.mData d = Some data /\
    drop (Z.to_nat (Deserializer.mPos d)) data = bytes ++ rest.

(** The object [d] moved on by [n] bytes. *)
Definition advanced (d : Deserializer.Deserializer) (n : nat)
  : Deserializer.Deserializer :=
  Deserializer.set_mPos d (Deserializer.mPos d + Z.of_nat n).

(** A type whose operators are inverse to each other: [enc] is what
    [operator<<] appends to a string for a value that [fits] the integer
    types the operators count with; [operator>>] reads that back into
    any object. *)
Class RoundTrip (T : Type) {ST : Serial T} : Type := {
  enc : T -> list byte;
  fits : T -> Prop;
  shl_appends : forall (t : T) (out : list byte),
    fits t ->
    shl Serializer.StringBuffer Serializer.StringBuffer_Buffer t
        (to_string out)
    = Ok (to_string (out ++ enc t));
  shr_reads : forall (t t0 : T) d rest,
    fits t -> holds d (enc t) rest ->
    shr t0 d = Ok (t, advanced d (length (enc t)));
  fixed_raw : FixedSize <> 0 ->
    0 < FixedSize /\
    forall t, enc t = raw t /\ Z.of_nat (length (raw t)) = FixedSize /\
              (fits t -> unraw (raw t) = t)
}.

(** The wire format of a [String] and of a [List<T>]: the 32-bit size,
    then the characters, or the elements one after the other. *)
Definition enc_String (string : String) : list byte :=
  le_bytes 4 (Z.of_nat (length string)) ++ string.

Definition enc_List {T : Type} (enc_T : T -> list byte) (l : list T)
  : list byte :=
  le_bytes 4 (Z.of_nat (length l)) ++ concat (map enc_T l).

(** A list whose size and whose block of fixed-size elements the
    operators can count. *)
Definition fits_List {T : Type} {ST : Serial T} (fits_T : T -> Prop)
    (l : list T) : Prop :=
  Z.of_nat (length l) < 2 ^ 32 /\ Forall fits_T l /\
  (FixedSize <> 0 -> FixedSize * Z.of_nat (length l) <= INT_MAX).

(** Memory holding [bytes], read from its beginning. *)
Definition memory (bytes : list byte) : Deserializer.Deserializer :=
  Deserializer.of_data (Some bytes) (Z.of_nat (length bytes)) "".

(** A Deserializer over a stream: the variant built from a [FILE]. *)
Definition file_backed (d : Deserializer.Deserializer) (f : Stdio.FILE)
  : Prop :=
  Deserializer.mData d = None /\ Deserializer.mFile d = Some f /\
  0 <= Stdio.fpos f <= Z.of_nat (length (Stdio.fdata f)).

(** The bytes of the stream from its position on. *)
Definition ahead (f : Stdio.FILE) : list byte :=
  drop (Z.to_nat (Stdio.fpos f)) (Stdio.fdata f).

(** A Deserializer over a stream of four bytes, positioned after the
    first. *)
Definition a_file_reader : Deserializer.Deserializer :=
  {| Deserializer.mData := None; Deserializer.mLength := 0;
     Deserializer.mPos := 0;
     Deserializer.mFile :=
       Some {| Stdio.fdata := [x01; x02; x03; x04]%byte; Stdio.fpos := 1;
               Stdio.fcap := 4 |};
     Deserializer.mKey := "" |}.

End Operators.

(** ** More of EventLoop.h and SharedMemory.cpp *)

Module More.

Import EventLoop.

(** [n] calls of [generateId] one after the other: the identifiers
    returned and the loop afterwards. *)
Fixpoint generateIds (n : nat) (l : EventLoop) : list Z * EventLoop :=
  match n with
  | O => ([], l)
  | S n' =>
      let '(id, l1) := generateId l in
      let '(ids, l2) := generateIds n' l1 in
      (id :: ids, l2)
  end.

(** [SharedMemory(key_t key, int size, CreateMode mode)]: the member
    initialisers, then [init], whose result is dropped. *)
Definition construct (key size : Z) (mode : SharedMemory.CreateMode)
  : SharedMemory.Sys SharedMemory.SharedMemory :=
  SharedMemory.bind
    (SharedMemory.init SharedMemory.fresh key size mode)
    (fun r => SharedMemory.Ret (snd r)).

(** The life of an object that is only constructed and destroyed: the
    constructor, then [cleanup] from the destructor. *)
Definition life (key size : Z) (mode : SharedMemory.CreateMode)
  : SharedMemory.Sys SharedMemory.SharedMemory :=
  SharedMemory.bind (construct key size mode) SharedMemory.cleanup.

(** [attach(flag, address)] followed by [detach()]. *)
Definition attach_detach (self : SharedMemory.SharedMemory)
    (flag address : Z) : SharedMemory.Sys SharedMemory.SharedMemory :=
  SharedMemory.bind (SharedMemory.attach self flag address)
    (fun r => SharedMemory.detach (snd r)).

(** The calls of a trace that are [shmctl]. *)
Definition is_shmctl (c : SharedMemory.Call * Z) : bool :=
  match fst c with SharedMemory.shmctl _ _ _ => true | _ => false end.

(** The bytes a call [write(data, len)] names. *)
Definition named (w : list byte * Z) : list byte :=
  take (Z.to_nat (snd w)) (fst w).

(** User 1000, with no segment at all. *)
Definition no_segments : SysV.Kernel :=
  {| SysV.segs := []; SysV.euid := 1000 |}.

End More.

(** * Properties of the Serializer *)

Section SerializerFacts.
Import Serializer.
Context {B : Type} `{Buffer B}.



(** A successful call hands the bytes to the buffer exactly once. *)
Lemma write_success (s : Serializer B) data len w :
  write s data len = Ok w -> ret w = true ->
  mError s = false /\ mError (after w) = false /\
  calls w = [ {| call_data := data; call_len := len |} ] /\
  buf_write (mBuffer s) data len = (mBuffer (after w), true).
Proof.
  unfold write. destruct (len <=? 0); [discriminate |].
  destruct (mError s) eqn:He.
  - intros [= <-]. discriminate.
  - destruct (buf_write (mBuffer s) data len) as [b ok].
    destruct ok; simpl; intros [= <-]; simpl; try discriminate. auto.
Qed.




End SerializerFacts.

Section SerializerExamples.
Import Serializer.

(** A string sink never fails, so a Serializer over it never enters the
    error state. *)
Lemma StringBuffer_never_fails (s : Serializer StringBuffer) data len w :
  mError s = false -> write s data len = Ok w ->
  ret w = true /\ hasError (after w) = false.
Proof.
  unfold write. intros He.
  destruct (len <=? 0); [discriminate |]. rewrite He. simpl.
  intros [= <-]. auto.
Qed.

Example short_file_first_write :
  write short_file [x01; x02; x03]%byte 3
  = Ok {| ret := false;
          calls := [ mkBufCall [x01; x02; x03]%byte 3 ];
          after := {| mError := true;
                      mBuffer := mkFileBuffer
                        {| Stdio.fdata := [x01; x02]%byte; Stdio.fpos := 2;
                           Stdio.fcap := 2 |} |} |}.
Proof. reflexivity. Qed.


End SerializerExamples.

(** * Properties of the Deserializer *)

Section DeserializerFacts.
Import Deserializer.

Lemma set_mPos_same d : set_mPos d (mPos d) = d.
Proof. destruct d; reflexivity. Qed.

Lemma to_size_t_nonneg len : 0 <= len <= INT_MAX -> to_size_t len = len.
Proof.
  unfold to_size_t, INT_MAX. intros Hl. apply Z.mod_small. lia.
Qed.

Lemma memcpy_in_range (src : list byte) off n :
  0 <= off -> 0 <= n -> off + n <= Z.of_nat (length src) ->
  memcpy src off n = Ok (take (Z.to_nat n) (drop (Z.to_nat off) src)) /\
  Z.of_nat (length (take (Z.to_nat n) (drop (Z.to_nat off) src))) = n.
Proof.
  intros Ho Hn Hle. unfold memcpy.
  destruct (0 <=? off) eqn:E1; [| apply Z.leb_gt in E1; lia].
  destruct (0 <=? n) eqn:E2; [| apply Z.leb_gt in E2; lia].
  destruct (off + n <=? Z.of_nat (length src)) eqn:E3;
    [| apply Z.leb_gt in E3; lia].
  split; [reflexivity |].
  rewrite length_take, length_drop. lia.
Qed.

(** C9, with the length non-negative: on a memory-backed Deserializer,
    for [0 <= len] and [pos + len <= length], [peek] stores at the target
    exactly the [len] bytes from [pos] on that the following [read]
    stores, and returns the object unchanged; [read] stores those bytes
    and advances [pos()] by exactly [len], changing nothing else. *)
Theorem Deserializer_peek_read (d : Deserializer) (len : Z) :
  memory_backed d -> 0 <= len -> pos d + len <= mLength d ->
  peek d len = Ok {| target := window d len; count := len; self := d |} /\
  read d len = Ok {| target := window d len; count := len;
                     self := set_mPos d (mPos d + len) |} /\
  Z.of_nat (length (window d len)) = len /\
  pos (set_mPos d (mPos d + len)) = pos d + len.
Proof.
  intros (Hf & Hmax & Hpos & Hdata) Hl Hle.
  assert (Hp : pos d = mPos d) by (unfold pos; rewrite Hf; reflexivity).
  rewrite Hp in *.
  assert (Hpos' : pos (set_mPos d (mPos d + len)) = mPos d + len).
  { unfold pos, set_mPos. cbn. rewrite Hf. reflexivity. }
  unfold peek, read, window. destruct (len =? 0) eqn:E0.
  - apply Z.eqb_eq in E0. subst len.
    rewrite Z.add_0_r, set_mPos_same.
    destruct (mData d); cbn; auto.
  - apply Z.eqb_neq in E0.
    destruct (mData d) as [data |]; [| lia].
    destruct (memcpy_in_range data (mPos d) len) as (Hm & Hn); [lia .. |].
    unfold int_add, in_int.
    destruct ((INT_MIN <=? mPos d + len) && (mPos d + len <=? INT_MAX))
      eqn:Ei.
    2:{ apply andb_false_iff in Ei as [Ei | Ei]; apply Z.leb_gt in Ei;
        unfold INT_MIN in *; lia. }
    destruct (mPos d + len <=? mLength d) eqn:Ea;
      [| apply Z.leb_gt in Ea; lia].
    rewrite to_size_t_nonneg by lia. rewrite Hm. auto.
Qed.

End DeserializerFacts.

Lemma Deserializer_peek_read_witness :
  let d := Deserializer.set_mPos
             (Deserializer.of_data (Some [x0a; x0b; x0c; x0d]%byte) 4 "k") 1 in
  Deserializer.peek d 2
    = Ok {| Deserializer.target := [x0b; x0c]%byte;
            Deserializer.count := 2; Deserializer.self := d |} /\
  Deserializer.read d 2
    = Ok {| Deserializer.target := [x0b; x0c]%byte;
            Deserializer.count := 2;
            Deserializer.self := Deserializer.set_mPos d 3 |}.
Proof.
  intros d.
  destruct (Deserializer_peek_read d 2) as (Hp & Hr & _).
  - subst d. unfold Deserializer.memory_backed, INT_MAX. cbn.
    repeat split; try reflexivity; lia.
  - lia.
  - subst d. cbn. lia.
  - split; [exact Hp | exact Hr].
Defined.

(** C9 as worded admits a negative [len] (then [pos + len <= length] holds
    as well): the assertion passes, and [memcpy] is asked for
    [(size_t) len] bytes, far beyond the four that are there. *)
Lemma Deserializer_peek_negative_len :
  ~ (forall d len,
       Deserializer.memory_backed d ->
       Deserializer.pos d + len <= Deserializer.mLength d ->
       Deserializer.peek_read_agree d len).
Proof.
  intros Hall.
  destruct (Hall (Deserializer.of_data (Some [x01; x02; x03; x04]%byte) 4 "")
              (-1)) as (bytes & Hp & _).
  - unfold Deserializer.memory_backed, INT_MAX. cbn.
    repeat split; try reflexivity; lia.
  - cbn. lia.
  - vm_compute in Hp. discriminate.
Qed.

Example peek_negative_len_undefined :
  Deserializer.peek
    (Deserializer.of_data (Some [x01; x02; x03; x04]%byte) 4 "") (-1)
  = Undefined.
Proof. vm_compute. reflexivity. Qed.

(** * Properties of SharedMemory *)

Section SharedMemoryFacts.
Import SharedMemory.
Context {W : Type} (os : World W).

Lemma run_bind {A B : Type} (m : Sys A) (f : A -> Sys B) : forall w,
  run os (x <- m ;; f x) w
  = {| value := value (run os (f (value (run os m w))) (world (run os m w)));
       world := world (run os (f (value (run os m w))) (world (run os m w)));
       trace := trace (run os m w)
                ++ trace (run os (f (value (run os m w)))
                                 (world (run os m w))) |}.
Proof.
  induction m as [a | c k IH]; intros w; cbn [bind run].
  - cbn [value world trace app]. destruct (run os (f a) w); reflexivity.
  - destruct (respond os w c) as [r w1]. rewrite IH. reflexivity.
Qed.

Lemma run_call (c : Call) (w : W) :
  run os (call c) w
  = {| value := fst (respond os w c); world := snd (respond os w c);
       trace := [ (c, fst (respond os w c)) ] |}.
Proof. cbn. destruct (respond os w c); reflexivity. Qed.

(** The recreate block: either the lookup finds nothing, or the segment
    found is removed and exclusive creation is tried again. *)
Lemma run_init_recreate key size (w : W) :
  (value (run os (init_recreate key size) w) = -1 /\
   trace (run os (init_recreate key size) w) = [ (shmget key size 0, -1) ])
  \/
  (exists old r,
     old <> -1 /\
     trace (run os (init_recreate key size) w)
     = [ (shmget key size 0, old);
         (shmctl old IPC_RMID None, r);
         (shmget key size creat_excl,
          value (run os (init_recreate key size) w)) ]).
Proof.
  unfold init_recreate. cbn [bind run].
  destruct (respond os w (shmget key size 0)) as [old w1].
  destruct (old =? -1) eqn:Eo; cbn [negb bind run].
  - apply Z.eqb_eq in Eo. subst old. left. auto.
  - apply Z.eqb_neq in Eo. right.
    destruct (respond os w1 (shmctl old IPC_RMID None)) as [r w2].
    destruct (respond os w2 (shmget key size creat_excl)) as [shm w3].
    exists old, r. cbn. auto.
Qed.

(** The permission block: it answers true exactly when [IPC_SET] did not
    return [-1]; otherwise it removes the segment. *)
Lemma run_init_set_perms shm (w : W) :
  exists uid,
    (exists ret, ret <> -1 /\
       value (run os (init_set_perms shm) w) = true /\
       trace (run os (init_set_perms shm) w) = set_perms shm uid ret)
    \/
    (exists r,
       value (run os (init_set_perms shm) w) = false /\
       trace (run os (init_set_perms shm) w)
       = set_perms shm uid (-1) ++ [ (shmctl shm IPC_RMID None, r) ]).
Proof.
  unfold init_set_perms. cbn [bind run].
  destruct (respond os w getuid) as [uid w1]. exists uid.
  destruct (respond os w1 (shmctl shm IPC_SET _)) as [ret w2].
  destruct (ret =? -1) eqn:Er; cbn [bind run].
  - apply Z.eqb_eq in Er. subst ret. right.
    destruct (respond os w2 (shmctl shm IPC_RMID None)) as [r w3].
    exists r. cbn. auto.
  - apply Z.eqb_neq in Er. left. exists ret. cbn. auto.
Qed.

Lemma acquired_length key size shm acq :
  acquired key size shm acq ->
  (shm <> -1 /\ (length acq = 1 \/ length acq = 4)%nat) \/
  (shm = -1 /\ (length acq = 2 \/ length acq = 4)%nat).
Proof.
  intros Ha. destruct Ha as [shm Hs | | old r shm Ho]; simpl.
  - left. auto.
  - right. auto.
  - destruct (Z.eq_dec shm (-1)); [right | left]; auto.
Qed.

(** The part of [init] after the handle is known. *)
Lemma init_tail_ending self key size shm acq (w : W) :
  acquired key size shm acq ->
  forall r : Ran (bool * SharedMemory) W,
  trace r = acq ++ trace (run os
     (if shm =? -1 then Ret (false, set_mShm self shm)
      else ok <- init_set_perms shm ;;
           if negb ok then Ret (false, set_mShm self (-1))
           else Ret (true, {| mShm := shm; mOwner := true;
                              mAddr := mAddr self; mKey := key;
                              mSize := size |})) w) ->
  value r = value (run os
     (if shm =? -1 then Ret (false, set_mShm self shm)
      else ok <- init_set_perms shm ;;
           if negb ok then Ret (false, set_mShm self (-1))
           else Ret (true, {| mShm := shm; mOwner := true;
                              mAddr := mAddr self; mKey := key;
                              mSize := size |})) w) ->
  init_ending self key size shm acq r.
Proof.
  intros Ha r Ht Hv. unfold init_ending.
  destruct (shm =? -1) eqn:Es.
  - apply Z.eqb_eq in Es. subst shm. left. cbn in Ht, Hv.
    rewrite app_nil_r in Ht. auto.
  - apply Z.eqb_neq in Es. right.
    rewrite run_bind in Ht, Hv. cbn [trace value] in Ht, Hv.
    destruct (run_init_set_perms shm w)
      as (uid & [(ret & Hr & Hval & Htr) | (r' & Hval & Htr)]);
      rewrite Hval, Htr in *; cbn in Ht, Hv.
    + left. split; [assumption |]. exists uid, ret. auto.
    + right. split; [assumption |]. exists uid, r'. auto.
Qed.

(** Every run of [init] in [Recreate] mode with a key other than [-1]:
    how the handle was come by, then one of the three endings. *)
Lemma init_recreate_runs (w : W) self key size :
  key <> -1 ->
  exists shm acq,
    acquired key size shm acq /\
    init_ending self key size shm acq
      (run os (init self key size Recreate) w).
Proof.
  intros Hk. unfold init.
  destruct (key =? -1) eqn:Ek; [apply Z.eqb_eq in Ek; contradiction |].
  cbn [is_None is_Recreate negb].
  rewrite run_bind, run_call. cbn [value world trace].
  destruct (respond os w (shmget key size creat_excl)) as [r1 w1].
  cbn [fst snd].
  rewrite run_bind. cbn [value world trace].
  destruct (r1 =? -1) eqn:E1; cbn [andb].
  - apply Z.eqb_eq in E1. subst r1.
    destruct (run_init_recreate key size w1)
      as [(Hv & Htr) | (old & r & Ho & Htr)].
    + exists (-1), [ (shmget key size creat_excl, -1);
                     (shmget key size 0, -1) ].
      split; [apply acq_absent |].
      eapply init_tail_ending; [apply acq_absent | |];
        cbn [trace value]; rewrite ?Htr, ?Hv; reflexivity.
    + eexists _, [ (shmget key size creat_excl, -1);
                   (shmget key size 0, old);
                   (shmctl old IPC_RMID None, r);
                   (shmget key size creat_excl, _) ].
      split; [constructor; assumption |].
      eapply init_tail_ending; [constructor; assumption | |];
        cbn [trace value]; rewrite ?Htr; reflexivity.
  - apply Z.eqb_neq in E1.
    exists r1, [ (shmget key size creat_excl, r1) ].
    split; [constructor; assumption |].
    eapply init_tail_ending; [constructor; assumption | |];
      cbn [trace value run]; reflexivity.
Qed.

(** C7, as the code has it.  [init] in destroy-and-recreate mode with the
    key [-1] returns false, calls nothing and leaves the object and every
    segment alone.  With any other key it first asks for exclusive
    creation.  When that fails and the lookup [shmget(key, size, 0)]
    gives a handle, it asks for that segment's removal, whatever the
    answer, and asks for exclusive creation again, whose answer becomes
    the handle; when the lookup fails too, nothing is removed and [init]
    returns false.  It returns true exactly when a handle was obtained
    and setting its permissions succeeded, and then the object holds the
    handle, key and size and records itself as owner. *)
Theorem SharedMemory_init_recreate (w : W) self key size :
  (key = -1 ->
     run os (init self key size Recreate) w
     = {| value := (false, self); world := w; trace := [] |}) /\
  (key <> -1 ->
     (exists shm acq,
        acquired key size shm acq /\
        init_ending self key size shm acq
          (run os (init self key size Recreate) w)) /\
     (forall old rest,
        trace (run os (init self key size Recreate) w)
        = (shmget key size creat_excl, -1)
          :: (shmget key size 0, old) :: rest ->
        old <> -1 ->
        exists r shm rest',
          rest = (shmctl old IPC_RMID None, r)
                 :: (shmget key size creat_excl, shm) :: rest') /\
     (forall rest,
        trace (run os (init self key size Recreate) w)
        = (shmget key size creat_excl, -1)
          :: (shmget key size 0, -1) :: rest ->
        rest = [] /\
        value (run os (init self key size Recreate) w)
        = (false, set_mShm self (-1))) /\
     (fst (value (run os (init self key size Recreate) w)) = true <->
      exists shm acq uid ret,
        acquired key size shm acq /\ shm <> -1 /\ ret <> -1 /\
        trace (run os (init self key size Recreate) w)
        = acq ++ set_perms shm uid ret) /\
     (fst (value (run os (init self key size Recreate) w)) = true ->
      mOwner (snd (value (run os (init self key size Recreate) w))) = true)).
Proof.
  split.
  - intros ->. reflexivity.
  - intros Hk.
    destruct (init_recreate_runs w self key size Hk)
      as (shm & acq & Ha & Hend).
    split; [exists shm, acq; auto |].
    set (r := run os (init self key size Recreate) w) in *.
    split; [| split; [| split]].
    + intros old rest Htr Hold.
      destruct Hend as [(Hs & Ht & Hv)
                       | [(Hs & uid & ret & Hr & Ht & Hv)
                         | (Hs & uid & r' & Ht & Hv)]];
        rewrite Ht in Htr;
        destruct Ha as [shm Hne | | old' r0 shm Ho];
        cbn in Htr; try congruence;
        injection Htr as -> <-; eauto.
    + intros rest Htr.
      destruct Hend as [(Hs & Ht & Hv)
                       | [(Hs & uid & ret & Hr & Ht & Hv)
                         | (Hs & uid & r' & Ht & Hv)]];
        rewrite Ht in Htr;
        destruct Ha as [shm Hne | | old' r0 shm Ho];
        cbn in Htr; try congruence.
      injection Htr as <-. auto.
    + split.
      * intros Htrue.
        destruct Hend as [(Hs & Ht & Hv)
                         | [(Hs & uid & ret & Hr & Ht & Hv)
                           | (Hs & uid & r' & Ht & Hv)]];
          rewrite Hv in Htrue; try discriminate.
        exists shm, acq, uid, ret. auto.
      * intros (shm' & acq' & uid' & ret' & Ha' & Hs' & Hr' & Ht').
        apply (f_equal length) in Ht'. rewrite length_app in Ht'.
        cbn [set_perms length] in Ht'.
        destruct (acquired_length _ _ _ _ Ha') as [(_ & Hl') | (? & _)];
          [| contradiction].
        destruct Hend as [(Hs & Ht & Hv)
                         | [(Hs & uid & ret & Hr & Ht & Hv)
                           | (Hs & uid & r' & Ht & Hv)]].
        -- rewrite Ht in Ht'.
           destruct (acquired_length _ _ _ _ Ha) as [(? & _) | (_ & Hl)];
             [contradiction | lia].
        -- rewrite Hv. reflexivity.
        -- rewrite Ht in Ht'. rewrite !length_app in Ht'.
           cbn [set_perms length] in Ht'.
           destruct (acquired_length _ _ _ _ Ha) as [(_ & Hl) | (? & _)];
             [lia | contradiction].
    + intros Htrue.
      destruct Hend as [(Hs & Ht & Hv)
                       | [(Hs & uid & ret & Hr & Ht & Hv)
                         | (Hs & uid & r' & Ht & Hv)]];
        rewrite Hv in Htrue |- *; try discriminate. reflexivity.
Qed.

Lemma set_mAddr_same self : set_mAddr self (mAddr self) = self.
Proof. destruct self; reflexivity. Qed.

(** The flags [attach] hands to [shmat]. *)
Lemma attach_calls_shmat (w : W) self flag address :
  mAddr self = 0 ->
  exists flg a rest,
    trace (run os (attach self flag address) w)
    = (shmat (mShm self) address flg, a) :: rest /\
    ((a = SHMAT_FAILED /\ (exists r, rest = [ (log_error, r) ]) /\
      value (run os (attach self flag address) w) = (0, self))
     \/
     (a <> SHMAT_FAILED /\ rest = [] /\
      value (run os (attach self flag address) w) = (a, set_mAddr self a))).
Proof.
  intros H0. unfold attach. rewrite H0. cbn [Z.eqb negb bind run].
  match goal with
  | |- context [respond os w (shmat ?i ?a ?f)] =>
      destruct (respond os w (shmat i a f)) as [a' w1]; exists f, a'
  end.
  destruct (a' =? SHMAT_FAILED) eqn:Ea; cbn [bind run].
  - apply Z.eqb_eq in Ea.
    destruct (respond os w1 log_error) as [r w2].
    eexists. split; [reflexivity |]. left.
    split; [assumption |]. split; [eauto |].
    cbn. rewrite <- H0, set_mAddr_same. reflexivity.
  - apply Z.eqb_neq in Ea.
    eexists. split; [reflexivity |]. right. auto.
Qed.

(** C10. [attach] on an object without a mapping calls [shmat] once.  If
    that gives an address, the object records it and returns it, and from
    then on every further [attach], whatever its flag and address
    arguments and whatever the state of the world, returns that same
    address, calls nothing and changes nothing.  If [shmat] fails,
    [attach] returns the null address and the object is as before, its
    address still null.  [detach] on an object without a mapping calls
    nothing and changes nothing. *)
Theorem SharedMemory_attach_detach (w : W) self flag address :
  (mAddr self <> 0 ->
     run os (attach self flag address) w
     = {| value := (mAddr self, self); world := w; trace := [] |}) /\
  (mAddr self = 0 ->
     exists flg a rest,
       trace (run os (attach self flag address) w)
       = (shmat (mShm self) address flg, a) :: rest) /\
  (mAddr self = 0 ->
     forall c a rest,
       trace (run os (attach self flag address) w) = (c, a) :: rest ->
       a <> SHMAT_FAILED ->
       rest = [] /\
       value (run os (attach self flag address) w) = (a, set_mAddr self a) /\
       mAddr (snd (value (run os (attach self flag address) w))) = a /\
       (a <> 0 ->
        forall (w' : W) flag' address',
          run os (attach (snd (value (run os (attach self flag address) w)))
                         flag' address') w'
          = {| value := (a, snd (value (run os (attach self flag address) w)));
               world := w'; trace := [] |})) /\
  (mAddr self = 0 ->
     forall c rest,
       trace (run os (attach self flag address) w)
       = (c, SHMAT_FAILED) :: rest ->
       (exists flg, c = shmat (mShm self) address flg) /\
       value (run os (attach self flag address) w) = (0, self) /\
       mAddr (snd (value (run os (attach self flag address) w))) = 0) /\
  (mAddr self = 0 ->
     run os (detach self) w
     = {| value := self; world := w; trace := [] |}).
Proof.
  split; [| split; [| split; [| split]]].
  - intros Hne. unfold attach.
    destruct (mAddr self =? 0) eqn:E; [apply Z.eqb_eq in E; contradiction |].
    reflexivity.
  - intros H0.
    destruct (attach_calls_shmat w self flag address H0)
      as (flg & a & rest & Ht & _). eauto.
  - intros H0 c a rest Htr Hok.
    destruct (attach_calls_shmat w self flag address H0)
      as (flg & a' & rest' & Ht & [(Ha & _ & Hv) | (Ha & Hrest & Hv)]);
      rewrite Ht in Htr; injection Htr as <- <- <-.
    + contradiction.
    + rewrite Hv. cbn [snd mAddr set_mAddr].
      split; [exact Hrest |]. split; [reflexivity |].
      split; [reflexivity |].
      intros Hnz w' flag' address'. unfold attach at 1.
      cbn [mAddr set_mAddr].
      destruct (a' =? 0) eqn:E; [apply Z.eqb_eq in E; contradiction |].
      reflexivity.
  - intros H0 c rest Htr.
    destruct (attach_calls_shmat w self flag address H0)
      as (flg & a & rest' & Ht & [(Ha & _ & Hv) | (Ha & _ & Hv)]);
      rewrite Ht in Htr; injection Htr as <- -> <-.
    + rewrite Hv. cbn. eauto.
    + contradiction.
  - intros H0. unfold detach. rewrite H0. reflexivity.
Qed.

End SharedMemoryFacts.

Section SharedMemoryExamples.
Import SharedMemory SysV.

(** Recreating the segment of key 42: found, removed, created anew as
    segment 1, permissions set. *)
Example recreate_existing :
  run kernel (init fresh 42 64 Recreate) one_segment
  = {| value := (true, {| mShm := 1; mOwner := true; mAddr := 0;
                          mKey := 42; mSize := 64 |});
       world := {| segs := [ mkSeg None 64 1000 S_0600;
                             mkSeg (Some 42) 64 1000
                                   (Z.lor S_0600 SHM_DEST) ];
                   euid := 1000 |};
       trace := [ (shmget 42 64 creat_excl, -1);
                  (shmget 42 64 0, 0);
                  (shmctl 0 IPC_RMID None, 0);
                  (shmget 42 64 creat_excl, 1) ]
                ++ set_perms 1 1000 0 |}.
Proof. vm_compute. reflexivity. Qed.

(** The segment under the key is smaller than the size asked for: the
    lookup itself fails, nothing is removed, [init] returns false. *)
Example recreate_larger :
  run kernel (init fresh 42 128 Recreate) one_segment
  = {| value := (false, fresh);
       world := one_segment;
       trace := [ (shmget 42 128 creat_excl, -1);
                  (shmget 42 128 0, -1) ] |}.
Proof. vm_compute. reflexivity. Qed.

Example attach_twice :
  let r := run kernel (init fresh 42 64 Recreate) one_segment in
  let a := run kernel (attach (snd (value r)) Write 0) (world r) in
  fst (value a) = 0x7f0000001000 /\
  run kernel (attach (snd (value a)) Read 0x1000) (world a)
  = {| value := value a; world := world a; trace := [] |}.
Proof. vm_compute. split; reflexivity. Qed.

Lemma SharedMemory_init_recreate_witness :
  run kernel (init fresh (-1) 64 Recreate) one_segment
  = {| value := (false, fresh); world := one_segment; trace := [] |} /\
  (fst (value (run kernel (init fresh 42 64 Recreate) one_segment)) = true ->
   mOwner (snd (value (run kernel (init fresh 42 64 Recreate) one_segment)))
   = true).
Proof.
  split.
  - apply (SharedMemory_init_recreate kernel one_segment fresh (-1) 64).
    reflexivity.
  - apply (SharedMemory_init_recreate kernel one_segment fresh 42 64).
    lia.
Defined.

(** No segment 7 exists: [shmat] fails.  Segment 0 exists: [shmat] gives
    an address, and a second [attach] with other arguments, in another
    world, returns it again without a call. *)
Lemma SharedMemory_attach_detach_witness :
  let self := set_mShm fresh 7 in
  let here := set_mShm fresh 0 in
  let mapped := run kernel (attach here Write 0) one_segment in
  value (run kernel (attach self Write 0) one_segment) = (0, self) /\
  value mapped = (0x7f0000000000, set_mAddr here 0x7f0000000000) /\
  run kernel (attach (snd (value mapped)) Read 0x1000)
      {| segs := []; euid := 0 |}
  = {| value := (0x7f0000000000, snd (value mapped));
       world := {| segs := []; euid := 0 |}; trace := [] |} /\
  run kernel (attach (set_mAddr self 0x1000) Read 0) one_segment
  = {| value := (0x1000, set_mAddr self 0x1000); world := one_segment;
       trace := [] |} /\
  run kernel (detach self) one_segment
  = {| value := self; world := one_segment; trace := [] |}.
Proof.
  intros self here mapped.
  destruct (SharedMemory_attach_detach kernel one_segment self Write 0)
    as (_ & _ & _ & Hfail & Hdetach).
  destruct (SharedMemory_attach_detach kernel one_segment here Write 0)
    as (_ & _ & Hok & _).
  destruct (SharedMemory_attach_detach kernel one_segment
              (set_mAddr self 0x1000) Read 0) as (Hheld & _).
  destruct (Hok eq_refl (shmat 0 0 0) 0x7f0000000000 [])
    as (_ & Hv & _ & Hagain); [reflexivity | discriminate |].
  split; [| split; [| split; [| split]]].
  - eapply Hfail; reflexivity.
  - exact Hv.
  - apply Hagain. discriminate.
  - apply Hheld. cbn. lia.
  - apply Hdetach. reflexivity.
Defined.

(** A segment that belongs to another user: its removal is refused,
    exclusive creation fails again, and the table is as before. *)
Example recreate_foreign :
  run kernel (init fresh 42 64 Recreate) foreign_segment
  = {| value := (false, fresh);
       world := foreign_segment;
       trace := [ (shmget 42 64 creat_excl, -1);
                  (shmget 42 64 0, 0);
                  (shmctl 0 IPC_RMID None, -1);
                  (shmget 42 64 creat_excl, -1) ] |}.
Proof. vm_compute. reflexivity. Qed.

(** C7 as worded fails where a segment is there under the key and the
    lookup with the size asked for does not find it: with 64 bytes under
    key 42 and 128 asked for, exclusive creation fails, and the segment
    is neither marked for removal nor replaced. *)
Lemma SharedMemory_init_recreate_not_in_place :
  ~ (forall w key size, key <> -1 -> recreated_in_place w key size).
Proof.
  intros Hall.
  destruct (Hall one_segment 42 128 ltac:(lia) 0
              {| seg_key := Some 42; seg_size := 64; seg_uid := 1000;
                 seg_mode := S_0600 |} eq_refl)
    as ((s' & Hs & Hk) & _).
  vm_compute in Hs. injection Hs as <-. discriminate.
Qed.

End SharedMemoryExamples.

(** * Properties of the EventLoop: timer identifiers *)

Section TimerIds.
Import EventLoop.

Lemma registerTimer_fst r l :
  fst (registerTimer r l) = uint32_to_int (nextId l).
Proof. reflexivity. Qed.

Lemma registerTimer_nextId r l :
  nextId (snd (registerTimer r l)) = (nextId l + 1) mod 2 ^ 32.
Proof. reflexivity. Qed.

Lemma registerTimers_cons r rs l :
  registerTimers (r :: rs) l
  = (fst (registerTimer r l)
       :: fst (registerTimers rs (snd (registerTimer r l))),
     snd (registerTimers rs (snd (registerTimer r l)))).
Proof.
  cbn [registerTimers].
  destruct (registerTimer r l) as [id l1]. cbn [fst snd].
  destruct (registerTimers rs l1) as [ids l2]. reflexivity.
Qed.

(** The counter after a sequence of registrations. *)
Lemma registerTimers_nextId rs : forall l,
  nextId_ok l ->
  nextId (snd (registerTimers rs l))
  = (nextId l + Z.of_nat (length rs)) mod 2 ^ 32.
Proof.
  induction rs as [| r rs IH]; intros l Hok.
  - cbn. rewrite Z.add_0_r. symmetry. apply Z.mod_small. exact Hok.
  - rewrite registerTimers_cons. cbn [snd]. rewrite IH.
    + rewrite registerTimer_nextId.
      rewrite Zplus_mod_idemp_l. f_equal. cbn [length]. lia.
    + unfold nextId_ok. rewrite registerTimer_nextId.
      apply Z.mod_pos_bound. lia.
Qed.

(** The [i]-th identifier of a sequence of registrations. *)
Lemma registerTimers_lookup rs : forall l (i : nat) id,
  nextId_ok l ->
  fst (registerTimers rs l) !! i = Some id ->
  id = uint32_to_int ((nextId l + Z.of_nat i) mod 2 ^ 32).
Proof.
  induction rs as [| r rs IH]; intros l i id Hok Hi.
  - discriminate.
  - rewrite registerTimers_cons in Hi. cbn [fst] in Hi.
    destruct i as [| i].
    + cbn in Hi. injection Hi as <-.
      rewrite Z.add_0_r, Z.mod_small by exact Hok. reflexivity.
    + cbn [lookup list_lookup] in Hi.
      apply IH in Hi.
      * rewrite registerTimer_nextId, Zplus_mod_idemp_l in Hi.
        rewrite Hi. do 2 f_equal. lia.
      * unfold nextId_ok. rewrite registerTimer_nextId.
        apply Z.mod_pos_bound. lia.
Qed.

Lemma increasing_lookup ids :
  (forall (i : nat) a b,
     ids !! i = Some a -> ids !! S i = Some b -> a < b) ->
  increasing ids.
Proof.
  induction ids as [| a rest IH]; intros H; [exact I |].
  cbn [increasing]. destruct rest as [| b rest']; [exact I |].
  split.
  - apply (H 0%nat); reflexivity.
  - apply IH. intros i x y Hx Hy. apply (H (S i)); assumption.
Qed.

Lemma increasing_lt ids : increasing ids ->
  forall (i j : nat) a b,
    (i < j)%nat -> ids !! i = Some a -> ids !! j = Some b -> a < b.
Proof.
  induction ids as [| x rest IH]; intros Hinc i j a b Hij Ha Hb;
    [discriminate |].
  cbn [increasing] in Hinc. destruct rest as [| y rest'].
  - destruct j as [| j]; [lia |]. discriminate.
  - destruct Hinc as [Hxy Hinc].
    destruct j as [| j]; [lia |]. cbn [lookup list_lookup] in Hb.
    destruct i as [| i].
    + cbn in Ha. injection Ha as <-.
      destruct j as [| j].
      * cbn in Hb. injection Hb as <-. exact Hxy.
      * assert (y < b); [| lia].
        apply (IH Hinc 0%nat (S j)); [lia | reflexivity | exact Hb].
    + cbn [lookup list_lookup] in Ha.
      apply (IH Hinc i j); [lia | exact Ha | exact Hb].
Qed.

Lemma increasing_NoDup ids : increasing ids -> NoDup ids.
Proof.
  intros Hinc. apply NoDup_alt. intros i j x Hi Hj.
  destruct (Nat.lt_trichotomy i j) as [Hlt | [Heq | Hgt]]; [| exact Heq |].
  - pose proof (increasing_lt ids Hinc i j x x Hlt Hi Hj). lia.
  - pose proof (increasing_lt ids Hinc j i x x Hgt Hj Hi). lia.
Qed.

(** C4, within the range of [int]: while the counter [nextId] does not
    pass 2^31, the identifiers a sequence of [registerTimer] calls returns
    are the successive values of the counter, so they are strictly
    increasing and none occurs twice. *)
Theorem registerTimer_ids_increasing rs l :
  0 <= nextId l -> nextId l + Z.of_nat (length rs) <= 2 ^ 31 ->
  (forall (i : nat) id,
     fst (registerTimers rs l) !! i = Some id ->
     id = nextId l + Z.of_nat i) /\
  increasing (fst (registerTimers rs l)) /\
  NoDup (fst (registerTimers rs l)).
Proof.
  intros H0 Hn.
  assert (Hok : nextId_ok l) by (unfold nextId_ok; lia).
  assert (Hlen : forall rs l, length (fst (registerTimers rs l)) = length rs).
  { clear. induction rs as [| r rs IH]; intros l; [reflexivity |].
    rewrite registerTimers_cons. cbn [fst length]. f_equal. apply IH. }
  assert (Hid : forall (i : nat) id,
             fst (registerTimers rs l) !! i = Some id ->
             id = nextId l + Z.of_nat i).
  { intros i id Hi.
    pose proof (lookup_lt_Some _ _ _ Hi) as Hlt. rewrite Hlen in Hlt.
    apply registerTimers_lookup in Hi; [| exact Hok].
    rewrite Z.mod_small in Hi by lia.
    unfold uint32_to_int in Hi.
    destruct (nextId l + Z.of_nat i <? 2 ^ 31) eqn:E;
      [exact Hi | apply Z.ltb_ge in E; lia]. }
  split; [exact Hid |].
  assert (Hinc : increasing (fst (registerTimers rs l))).
  { apply increasing_lookup. intros i a b Ha Hb.
    apply Hid in Ha. apply Hid in Hb. lia. }
  split; [exact Hinc | apply increasing_NoDup; exact Hinc].
Qed.

(** After 2^32 further registrations the counter is back where it was:
    the next identifier is one handed out before, whether or not the
    timer registered under it is still in the table. *)
Lemma registerTimer_ids_repeat rs r l :
  nextId_ok l -> Z.of_nat (length rs) = 2 ^ 32 ->
  fst (registerTimer r (snd (registerTimers rs l)))
  = fst (registerTimer r l).
Proof.
  intros Hok Hlen. rewrite !registerTimer_fst.
  rewrite registerTimers_nextId by exact Hok. rewrite Hlen.
  rewrite <- (Z.mul_1_l (2 ^ 32)) at 1. rewrite Z.mod_add by lia.
  rewrite Z.mod_small by exact Hok. reflexivity.
Qed.

End TimerIds.

Lemma registerTimer_ids_increasing_witness :
  EventLoop.increasing
    (fst (EventLoop.registerTimers
            [EventLoop.a_timer; EventLoop.a_timer; EventLoop.a_timer]
            (EventLoop.loop_at 5))).
Proof.
  apply (registerTimer_ids_increasing
           [EventLoop.a_timer; EventLoop.a_timer; EventLoop.a_timer]
           (EventLoop.loop_at 5)); cbn; lia.
Defined.

Example registerTimer_three :
  fst (EventLoop.registerTimers
         [EventLoop.a_timer; EventLoop.a_timer; EventLoop.a_timer]
         (EventLoop.loop_at 5)) = [5; 6; 7].
Proof. vm_compute. reflexivity. Qed.

(** C4 as worded fails where the counter passes 2^31 - 1: the identifier
    after 2147483647 is -2147483648. *)
Lemma registerTimer_ids_wrap :
  ~ (forall rs l,
       EventLoop.nextId_ok l ->
       EventLoop.increasing (fst (EventLoop.registerTimers rs l))).
Proof.
  intros Hall.
  pose proof (Hall [EventLoop.a_timer; EventLoop.a_timer]
                (EventLoop.loop_at (2 ^ 31 - 1))) as H.
  assert (Hids : fst (EventLoop.registerTimers
                        [EventLoop.a_timer; EventLoop.a_timer]
                        (EventLoop.loop_at (2 ^ 31 - 1)))
                 = [2147483647; -2147483648]) by (vm_compute; reflexivity).
  rewrite Hids in H. cbn in H.
  destruct H as [Hlt _]; [unfold EventLoop.nextId_ok; cbn; lia | lia].
Qed.

(** That counter value is reached from zero by 2^31 - 1 registrations. *)
Lemma registerTimer_wrap_reached rs :
  Z.of_nat (length rs) = 2 ^ 31 - 1 ->
  EventLoop.nextId (snd (EventLoop.registerTimers rs (EventLoop.loop_at 0)))
  = 2 ^ 31 - 1.
Proof.
  intros Hlen. rewrite registerTimers_nextId.
  - cbn [EventLoop.loop_at EventLoop.nextId]. rewrite Hlen. reflexivity.
  - unfold EventLoop.nextId_ok. cbn. lia.
Qed.

(** * Properties of the EventLoop: the registry and deleteLater *)

Section Registry.
Import EventLoop.

Lemma set_loops_same st : set_loops (loops st) st = st.
Proof. destruct st; reflexivity. Qed.

Lemma Control_eta c : {| strong := strong c; object := object c |} = c.
Proof. destruct c; reflexivity. Qed.

(** What [lock] does, by cases. *)
Lemma lock_Some w st p :
  fst (lock w st) = Some p <->
  w = Some p /\ (0 < use_count st p)%nat.
Proof.
  unfold lock, use_count. destruct w as [q |].
  - destruct (loops st !! q) as [c |] eqn:Hq.
    + destruct (0 <? strong c)%nat eqn:Hs; cbn [fst].
      * apply Nat.ltb_lt in Hs. split.
        -- intros [= <-]. rewrite Hq. auto.
        -- intros [[= <-] _]. reflexivity.
      * apply Nat.ltb_ge in Hs. split; [discriminate |].
        intros [[= <-] Hpos]. rewrite Hq in Hpos. lia.
    + cbn [fst]. split; [discriminate |].
      intros [[= <-] Hpos]. rewrite Hq in Hpos. lia.
  - cbn [fst]. split; [discriminate | intros [? _]; discriminate].
Qed.

Lemma lock_None w st : fst (lock w st) = None -> snd (lock w st) = st.
Proof.
  unfold lock. destruct w as [q |]; [| reflexivity].
  destruct (loops st !! q) as [c |]; [| reflexivity].
  destruct (0 <? strong c)%nat; [discriminate | reflexivity].
Qed.

(** The state a successful [lock] leaves: one more owner, nothing else. *)
Lemma lock_Some_state w st p :
  fst (lock w st) = Some p ->
  exists c, loops st !! p = Some c /\ (0 < strong c)%nat /\
    snd (lock w st)
    = set_loops (<[p := {| strong := S (strong c); object := object c |}]>
                   (loops st)) st.
Proof.
  unfold lock. destruct w as [q |]; [| discriminate].
  destruct (loops st !! q) as [c |] eqn:Hq; [| discriminate].
  destruct (0 <? strong c)%nat eqn:Hs; [| discriminate].
  cbn. intros [= <-]. exists c. apply Nat.ltb_lt in Hs. auto.
Qed.

(** Dropping the pointer that [lock] gave restores the state. *)
Lemma release_lock w st p :
  fst (lock w st) = Some p -> release (Some p) (snd (lock w st)) = st.
Proof.
  intros H. destruct (lock_Some_state w st p H) as (c & Hc & _ & ->).
  unfold release. cbn [loops set_loops].
  rewrite lookup_insert_eq. cbn [strong object pred].
  unfold set_loops. cbn. rewrite insert_insert_eq.
  rewrite Control_eta, (insert_id _ _ _ Hc). destruct st; reflexivity.
Qed.

(** C6. [mainEventLoop()] returns a shared pointer to the main instance
    exactly when the slot [mainLoop] refers to one that is alive, and then
    the caller is one more owner of it; otherwise it returns none and
    changes nothing.  The slot is weak: what it holds never counts as an
    owner, and once the last owner has let go the slot, though it still
    refers to the same control block, yields none. *)
Theorem mainEventLoop_weak (st : Process) :
  (forall p, fst (mainEventLoop st) = Some p <->
             mainLoop st = Some p /\ alive st p) /\
  (forall p, fst (mainEventLoop st) = Some p ->
             use_count (snd (mainEventLoop st)) p = S (use_count st p) /\
             mainLoop (snd (mainEventLoop st)) = mainLoop st) /\
  (fst (mainEventLoop st) = None -> snd (mainEventLoop st) = st) /\
  (forall w p, use_count (set_mainLoop w st) p = use_count st p) /\
  (forall p, mainLoop st = Some p -> use_count st p = 1%nat ->
             use_count (release (Some p) st) p = 0%nat /\
             mainLoop (release (Some p) st) = Some p /\
             fst (mainEventLoop (release (Some p) st)) = None).
Proof.
  unfold mainEventLoop, alive.
  split; [intros p; apply lock_Some |].
  split; [intros p H; split |].
  - destruct (lock_Some_state _ _ _ H) as (c & Hc & _ & ->).
    unfold use_count. cbn [loops set_loops].
    rewrite lookup_insert_eq, Hc. reflexivity.
  - destruct (lock_Some_state _ _ _ H) as (c & Hc & _ & ->). reflexivity.
  - split; [apply lock_None |].
    split; [intros w p; reflexivity |].
    intros p Hm H1.
    assert (Hmp : mainLoop (release (Some p) st) = Some p)
      by (unfold release; destruct (loops st !! p); assumption).
    assert (H0 : use_count (release (Some p) st) p = 0%nat).
    { unfold release, use_count in *.
      destruct (loops st !! p) as [c |] eqn:Hc; [| lia].
      cbn [loops set_loops]. rewrite lookup_insert_eq. cbn [strong]. lia. }
    split; [exact H0 |]. split; [exact Hmp |].
    destruct (fst (lock (mainLoop (release (Some p) st))
                        (release (Some p) st))) as [q |] eqn:Hq;
      [| reflexivity].
    apply lock_Some in Hq as [Hm' Hpos]. exfalso.
    rewrite Hmp in Hm'. injection Hm' as <-. lia.
Qed.

(** C5. [isMainThread()] returns, leaves the process as it was, and its
    value is true exactly when a main instance is alive and the calling
    thread is the one stored as its [threadId]. *)
Theorem isMainThread_iff (tid : ThreadId) (st : Process) :
  exists b,
    isMainThread tid st = Ok (b, st) /\
    (b = true <->
     exists p c, mainLoop st = Some p /\ loops st !! p = Some c /\
                 (0 < strong c)%nat /\ threadId (object c) = tid).
Proof.
  unfold isMainThread, mainEventLoop.
  destruct (lock (mainLoop st) st) as [t1 st1] eqn:E1.
  destruct t1 as [p |].
  - assert (H1 : fst (lock (mainLoop st) st) = Some p) by (rewrite E1; auto).
    destruct (lock_Some_state _ _ _ H1) as (c & Hc & Hpos & Hst).
    apply lock_Some in H1 as [Hm _].
    rewrite E1 in Hst. cbn [snd] in Hst.
    assert (Hm1 : mainLoop st1 = Some p) by (rewrite Hst; exact Hm).
    assert (Hc1 : loops st1 !! p
                  = Some {| strong := S (strong c); object := object c |})
      by (rewrite Hst; cbn; apply lookup_insert_eq).
    destruct (lock (mainLoop st1) st1) as [t2 st2] eqn:E2.
    assert (H2 : fst (lock (mainLoop st1) st1) = Some p).
    { apply lock_Some. split; [exact Hm1 |].
      unfold use_count. rewrite Hc1. cbn. lia. }
    rewrite E2 in H2. cbn [fst] in H2. subst t2.
    assert (H2 : fst (lock (mainLoop st1) st1) = Some p) by (rewrite E2; auto).
    destruct (lock_Some_state _ _ _ H2) as (c2 & Hc2 & _ & Hst2).
    rewrite E2 in Hst2. cbn [snd] in Hst2.
    rewrite Hc1 in Hc2. injection Hc2 as <-.
    assert (Hl2 : loops st2 !! p
                  = Some {| strong := S (S (strong c)); object := object c |})
      by (rewrite Hst2; cbn; apply lookup_insert_eq).
    rewrite Hl2. cbn [object].
    exists (Nat.eqb tid (threadId (object c))). split.
    + do 2 f_equal.
      pose proof (release_lock (mainLoop st1) st1 p H2) as R2.
      rewrite E2 in R2. cbn [snd] in R2. rewrite R2.
      pose proof (release_lock (mainLoop st) st p) as R1.
      rewrite E1 in R1. cbn [fst snd] in R1. apply R1. reflexivity.
    + rewrite Nat.eqb_eq. split.
      * intros ->. exists p, c. auto.
      * intros (p' & c' & Hm' & Hc' & _ & Ht).
        rewrite Hm in Hm'. injection Hm' as <-.
        rewrite Hc in Hc'. injection Hc' as <-. auto.
  - exists false. split.
    + assert (H1 : fst (lock (mainLoop st) st) = None) by (rewrite E1; auto).
      apply lock_None in H1. rewrite E1 in H1. cbn in H1. subst st1.
      reflexivity.
    + split; [discriminate |].
      intros (p & c & Hm & Hc & Hpos & _). exfalso.
      assert (H : fst (lock (mainLoop st) st) = Some p).
      { apply lock_Some. split; [exact Hm |].
        unfold use_count. rewrite Hc. exact Hpos. }
      rewrite E1 in H. discriminate.
Qed.

(** Posting through the pointer that [lock] gave and dropping it is
    posting in the state before. *)
Lemma release_post_lock w st p e :
  fst (lock w st) = Some p ->
  release (Some p) (post_to p e (snd (lock w st))) = post_to p e st.
Proof.
  intros H. destruct (lock_Some_state w st p H) as (c & Hc & _ & ->).
  unfold post_to. cbn [loops set_loops]. rewrite lookup_insert_eq, Hc.
  unfold release. cbn [loops set_loops]. rewrite lookup_insert_eq.
  cbn [strong object pred]. unfold set_loops. cbn.
  rewrite !insert_insert_eq. reflexivity.
Qed.

Lemma post_to_events p e st :
  alive st p -> events_of (post_to p e st) p = events_of st p ++ [e].
Proof.
  unfold alive, use_count, post_to, events_of.
  destruct (loops st !! p) as [c |] eqn:Hc; [| lia]. intros _.
  cbn [loops set_loops]. rewrite lookup_insert_eq. reflexivity.
Qed.

Lemma post_to_frame p e st :
  (forall q, q <> p -> events_of (post_to p e st) q = events_of st q) /\
  (forall q, use_count (post_to p e st) q = use_count st q) /\
  deleted (post_to p e st) = deleted st /\
  errors (post_to p e st) = errors st.
Proof.
  unfold post_to, events_of, use_count.
  destruct (loops st !! p) as [c |] eqn:Hc; [| auto].
  cbn [loops set_loops deleted errors]. repeat split.
  - intros q Hq. rewrite lookup_insert_ne by congruence. reflexivity.
  - intros q. destruct (decide (p = q)) as [<- | Hne].
    + rewrite lookup_insert_eq, Hc. reflexivity.
    + rewrite lookup_insert_ne by assumption. reflexivity.
Qed.

(** What [deleteLater] comes to, by the loop [eventLoop()] finds. *)
Lemma deleteLater_cases tid del st :
  match fst (lock (localLoop st !! tid) st) with
  | Some p => deleteLater tid del st = post_to p (DeleteLaterEvent del) st
  | None =>
      match fst (lock (mainLoop st) st) with
      | Some m => deleteLater tid del st
                  = post_to m (DeleteLaterEvent del) st
      | None => deleteLater tid del st = error "No event loop!" st
      end
  end.
Proof.
  unfold deleteLater, eventLoop, mainEventLoop.
  destruct (lock (localLoop st !! tid) st) as [[p |] st1] eqn:E1;
    cbn [fst].
  - replace st1 with (snd (lock (localLoop st !! tid) st))
      by (rewrite E1; reflexivity).
    apply release_post_lock. rewrite E1. reflexivity.
  - destruct (lock (mainLoop st) st) as [[m |] st2] eqn:E2; cbn [fst].
    + replace st2 with (snd (lock (mainLoop st) st))
        by (rewrite E2; reflexivity).
      apply release_post_lock. rewrite E2. reflexivity.
    + pose proof (lock_None (mainLoop st) st) as H.
      rewrite E2 in H. cbn in H. rewrite H by reflexivity. reflexivity.
Qed.

(** C1. [deleteLater(del)] on a thread with a live loop bound to it adds a
    release call for [del] at the back of that loop's queue; with none
    there but a live main loop, at the back of the main loop's queue;
    with neither, it reports the error and queues nothing.  The call
    itself never destroys [del]; running the release call does. *)
Theorem deleteLater_posts (tid : ThreadId) (del : Ptr) (st : Process) :
  (forall p, localLoop st !! tid = Some p -> alive st p ->
     deleteLater tid del st = post_to p (DeleteLaterEvent del) st /\
     events_of (deleteLater tid del st) p
     = events_of st p ++ [DeleteLaterEvent del] /\
     errors (deleteLater tid del st) = errors st) /\
  (forall m, (forall p, localLoop st !! tid = Some p -> ~ alive st p) ->
     mainLoop st = Some m -> alive st m ->
     deleteLater tid del st = post_to m (DeleteLaterEvent del) st /\
     events_of (deleteLater tid del st) m
     = events_of st m ++ [DeleteLaterEvent del] /\
     errors (deleteLater tid del st) = errors st) /\
  ((forall p, localLoop st !! tid = Some p -> ~ alive st p) ->
   (forall m, mainLoop st = Some m -> ~ alive st m) ->
     deleteLater tid del st = error "No event loop!" st /\
     errors (deleteLater tid del st) = errors st ++ ["No event loop!"] /\
     loops (deleteLater tid del st) = loops st) /\
  deleted (deleteLater tid del st) = deleted st /\
  deleted (Event_exec (DeleteLaterEvent del) st) = deleted st ++ [del].
Proof.
  pose proof (deleteLater_cases tid del st) as Hc.
  assert (Hlocal : forall p, localLoop st !! tid = Some p -> alive st p ->
            fst (lock (localLoop st !! tid) st) = Some p).
  { intros p Hp Ha. apply lock_Some. auto. }
  assert (Hnolocal :
            (forall p, localLoop st !! tid = Some p -> ~ alive st p) ->
            fst (lock (localLoop st !! tid) st) = None).
  { intros Hn. destruct (fst (lock (localLoop st !! tid) st)) as [p |] eqn:E;
      [| reflexivity].
    apply lock_Some in E as [Hp Ha]. exfalso. exact (Hn p Hp Ha). }
  split; [| split; [| split; [| split]]].
  - intros p Hp Ha. rewrite (Hlocal p Hp Ha) in Hc. rewrite Hc.
    split; [reflexivity |]. split; [apply post_to_events; exact Ha |].
    apply post_to_frame.
  - intros m Hn Hm Ha. rewrite (Hnolocal Hn) in Hc.
    assert (Hl : fst (lock (mainLoop st) st) = Some m)
      by (apply lock_Some; auto).
    rewrite Hl in Hc. rewrite Hc.
    split; [reflexivity |]. split; [apply post_to_events; exact Ha |].
    apply post_to_frame.
  - intros Hn Hm. rewrite (Hnolocal Hn) in Hc.
    destruct (fst (lock (mainLoop st) st)) as [m |] eqn:E.
    + apply lock_Some in E as [Hm' Ha]. exfalso. exact (Hm m Hm' Ha).
    + rewrite Hc. auto.
  - destruct (fst (lock (localLoop st !! tid) st)) as [p |].
    + rewrite Hc. apply post_to_frame.
    + destruct (fst (lock (mainLoop st) st)) as [m |]; rewrite Hc.
      * apply post_to_frame.
      * reflexivity.
  - reflexivity.
Qed.

End Registry.

Section RegistryExamples.
Import EventLoop.

Example deleteLater_local :
  events_of (deleteLater 2%nat 77%positive two_loops) 20%positive
  = [DeleteLaterEvent 77%positive].
Proof. vm_compute. reflexivity. Qed.

Example deleteLater_fallback :
  events_of (deleteLater 3%nat 77%positive two_loops) 10%positive
  = [DeleteLaterEvent 77%positive].
Proof. vm_compute. reflexivity. Qed.

Example deleteLater_nowhere :
  errors (deleteLater 3%nat 77%positive no_loops) = ["No event loop!"] /\
  deleted (deleteLater 3%nat 77%positive no_loops) = [].
Proof. vm_compute. split; reflexivity. Qed.

Example isMainThread_examples :
  isMainThread 1%nat two_loops = Ok (true, two_loops) /\
  isMainThread 2%nat two_loops = Ok (false, two_loops) /\
  isMainThread 1%nat no_loops = Ok (false, no_loops).
Proof. vm_compute. repeat split; reflexivity. Qed.

Lemma deleteLater_posts_witness :
  events_of (deleteLater 2%nat 77%positive two_loops) 20%positive
  = events_of two_loops 20%positive ++ [DeleteLaterEvent 77%positive] /\
  events_of (deleteLater 3%nat 77%positive two_loops) 10%positive
  = events_of two_loops 10%positive ++ [DeleteLaterEvent 77%positive] /\
  errors (deleteLater 3%nat 77%positive no_loops)
  = errors no_loops ++ ["No event loop!"].
Proof.
  destruct (deleteLater_posts 2%nat 77%positive two_loops)
    as (Hlocal & _).
  destruct (deleteLater_posts 3%nat 77%positive two_loops)
    as (_ & Hmain & _).
  destruct (deleteLater_posts 3%nat 77%positive no_loops)
    as (_ & _ & Hnone & _).
  split; [| split].
  - apply (Hlocal 20%positive).
    + reflexivity.
    + unfold alive. vm_compute. lia.
  - apply (Hmain 10%positive).
    + intros p Hp. vm_compute in Hp. discriminate.
    + reflexivity.
    + unfold alive. vm_compute. lia.
  - apply Hnone.
    + intros p Hp. vm_compute in Hp. discriminate.
    + intros m Hm. vm_compute in Hm. discriminate.
Defined.

Lemma mainEventLoop_weak_witness :
  fst (mainEventLoop two_loops) = Some 10%positive /\
  fst (mainEventLoop (release (Some 10%positive) two_loops)) = None.
Proof.
  destruct (mainEventLoop_weak two_loops) as (Hiff & _ & _ & _ & Hlast).
  split.
  - apply Hiff. split; [reflexivity |].
    unfold alive. vm_compute. lia.
  - apply Hlast; reflexivity.
Defined.

Lemma isMainThread_iff_witness :
  exists b, isMainThread 1%nat two_loops = Ok (b, two_loops).
Proof.
  destruct (isMainThread_iff 1%nat two_loops) as (b & Hb & _).
  exists b. exact Hb.
Defined.

End RegistryExamples.

(** * Properties of EventLoop::exec *)

Section ExecFacts.
Import EventLoop.

Lemma invoke_log f what r : log (invoke f what r) = log r ++ [what].
Proof. reflexivity. Qed.

Lemma invoke_events f what r :
  events (loop (invoke f what r)) = events (loop r).
Proof. unfold invoke. cbn. destruct (cb_quit f); reflexivity. Qed.

Lemma invoke_eventCbMap f what r :
  eventCbMap (loop (invoke f what r)) = eventCbMap (loop r).
Proof. unfold invoke. cbn. destruct (cb_quit f); reflexivity. Qed.

(** Step 1: the posts of other threads join the queue in the order in
    which they took the lock; the table is not touched. *)
Lemma apply_foreign_events arrived : forall l,
  events (foldl apply_foreign l arrived) = events l ++ posted arrived /\
  eventCbMap (foldl apply_foreign l arrived) = eventCbMap l.
Proof.
  induction arrived as [| f arrived IH]; intros l; cbn [foldl].
  - unfold posted. cbn. rewrite app_nil_r. auto.
  - destruct (IH (apply_foreign l f)) as [IHe IHm]. rewrite IHe, IHm.
    destruct f as [tid e | tid code]; cbn.
    + rewrite <- app_assoc. auto.
    + auto.
Qed.

(** Step 3: every queued event runs, front first, and the queue ends
    empty. *)
Lemma drain_from_spec q : forall r,
  log (drain_from q r) = log r ++ map FiredDeferred q /\
  eventCbMap (loop (drain_from q r)) = eventCbMap (loop r) /\
  events (loop (drain_from q r))
  = match q with [] => events (loop r) | _ => [] end.
Proof.
  induction q as [| e q IH]; intros r; cbn [drain_from map].
  - rewrite app_nil_r. auto.
  - destruct (IH (exec_event e
                    {| loop := set_events q (loop r); log := log r |}))
      as (Hl & Hm & He).
    rewrite Hl, Hm, He.
    assert (Hx : log (exec_event e
                  {| loop := set_events q (loop r); log := log r |})
                 = log r ++ [FiredDeferred e] /\
                 eventCbMap (loop (exec_event e
                  {| loop := set_events q (loop r); log := log r |}))
                 = eventCbMap (loop r) /\
                 events (loop (exec_event e
                  {| loop := set_events q (loop r); log := log r |}))
                 = q).
    { destruct e as [f | del]; cbn [exec_event].
      - rewrite invoke_log, invoke_eventCbMap, invoke_events. auto.
      - auto. }
    destruct Hx as (Hxl & Hxm & Hxe). rewrite Hxl, Hxm, Hxe.
    rewrite <- app_assoc. cbn [app]. split; [reflexivity |].
    split; [reflexivity |]. destruct q; reflexivity.
Qed.

Lemma drain_spec r :
  log (drain r) = log r ++ map FiredDeferred (events (loop r)) /\
  eventCbMap (loop (drain r)) = eventCbMap (loop r) /\
  events (loop (drain r)) = [].
Proof.
  unfold drain. destruct (drain_from_spec (events (loop r)) r)
    as (Hl & Hm & He).
  split; [exact Hl |]. split; [exact Hm |].
  rewrite He. destruct (events (loop r)); reflexivity.
Qed.

(** Step 4 adds timer callbacks only, one for each entry that is a
    timer. *)
Lemma fire_timers_from es : forall r,
  Forall (fun e => exists ex p rp f, snd e = TimerData ex p rp f) es ->
  log (foldl fire_timer r es)
  = log r ++ map (fun e => FiredTimer (fst e)) es /\
  events (loop (foldl fire_timer r es)) = events (loop r).
Proof.
  induction es as [| [id d] es IH]; intros r Hall; cbn [foldl map].
  - rewrite app_nil_r. auto.
  - inversion Hall as [| ? ? (ex & p & rp & f & Hd) Hrest]; subst.
    cbn [snd] in Hd. subst d.
    destruct (IH (fire_timer r (id, TimerData ex p rp f)) Hrest)
      as (Hl & He).
    rewrite Hl, He. cbn [fire_timer fst].
    rewrite invoke_log, invoke_events. cbn [log loop].
    rewrite <- app_assoc. auto.
Qed.

Lemma expired_timers now l :
  Forall (fun e => exists ex p rp f, snd e = TimerData ex p rp f)
         (expired now l).
Proof.
  unfold expired. apply List.Forall_forall. intros [id d] Hin.
  apply filter_In in Hin as [_ Hexp]. unfold is_expired in Hexp.
  cbn [snd] in *. destruct d as [mode f | ex p rp f]; [discriminate |].
  eauto.
Qed.

(** Step 5 adds socket callbacks only. *)
Lemma dispatch_sockets_spec ready : forall r,
  exists sockets,
    log (dispatch_sockets ready r) = log r ++ sockets /\
    Forall (fun f => is_socket f = true) sockets /\
    events (loop (dispatch_sockets ready r)) = events (loop r).
Proof.
  unfold dispatch_sockets.
  induction ready as [| [fd bits] ready IH]; intros r; cbn [foldl].
  - exists []. rewrite app_nil_r. auto.
  - destruct (IH (dispatch_socket r (fd, bits))) as (ss & Hl & Hs & He).
    rewrite Hl, He. unfold dispatch_socket.
    destruct (eventCbMap (loop r) !! fdToId fd) as [[mode f | ? ? ? ?] |].
    + destruct (bits =? 0).
      * exists ss. auto.
      * exists (FiredSocket fd bits :: ss).
        rewrite invoke_log, invoke_events. cbn [log loop].
        rewrite <- app_assoc. cbn [app].
        split; [reflexivity |]. split; [| reflexivity].
        constructor; [reflexivity | exact Hs].
    + exists ss. auto.
    + exists ss. auto.
Qed.

(** C2. In one iteration of [exec] the callbacks run are: first every
    deferred call, those already queued and then those other threads
    posted, in the order in which they were posted whichever thread
    posted them, leaving the queue empty; then one timer callback for
    each expired timer; then socket callbacks only. *)
Theorem exec_iteration_order now arrived ready (r : Running) :
  exists timers sockets,
    log (iteration now arrived ready r)
    = log r ++ map FiredDeferred (events (loop r) ++ posted arrived)
            ++ timers ++ sockets /\
    timers = map (fun e => FiredTimer (fst e))
                 (List.filter (is_expired now)
                    (map_to_list (eventCbMap (loop r)))) /\
    Forall (fun f => is_deferred f = true)
           (map FiredDeferred (events (loop r) ++ posted arrived)) /\
    Forall (fun f => is_timer f = true) timers /\
    Forall (fun f => is_socket f = true) sockets /\
    events (loop (iteration now arrived ready r)) = [].
Proof.
  unfold iteration.
  set (r1 := {| loop := foldl apply_foreign (loop r) arrived;
                log := log r |}).
  destruct (apply_foreign_events arrived (loop r)) as (He1 & Hm1).
  destruct (drain_spec r1) as (Hl2 & Hm2 & He2).
  destruct (fire_timers_from (expired now (loop (drain r1))) (drain r1)
              (expired_timers now (loop (drain r1)))) as (Hl3 & He3).
  fold (fire_timers now (drain r1)) in Hl3, He3.
  destruct (dispatch_sockets_spec ready (fire_timers now (drain r1)))
    as (ss & Hl4 & Hs4 & He4).
  exists (map (fun e => FiredTimer (fst e)) (expired now (loop (drain r1)))),
         ss.
  split; [| split; [| split; [| split; [| split]]]].
  - rewrite Hl4, Hl3, Hl2. subst r1. cbn [log loop]. rewrite He1.
    rewrite <- !app_assoc. reflexivity.
  - unfold expired. rewrite Hm2. subst r1. cbn [loop]. rewrite Hm1.
    reflexivity.
  - apply List.Forall_forall. intros f Hin. apply in_map_iff in Hin
      as (e & <- & _). reflexivity.
  - apply List.Forall_forall. intros f Hin. apply in_map_iff in Hin
      as (e & <- & _). reflexivity.
  - exact Hs4.
  - rewrite He4, He3. exact He2.
Qed.

Lemma exec_from_codes start timeout script : forall r,
  match exec_from start timeout script r with
  | Returned code q r' =>
      (code = Success /\ quitRequested (loop r') = true /\
       q = Some (quitCode (loop r')))
      \/
      (code = Timeout /\ quitRequested (loop r') = false /\ q = None /\
       exists now arrived ready,
         In (PollReturned now arrived ready) script /\
         elapsed start timeout now = true)
      \/
      (code = GeneralError /\ q = None /\ In PollFailed script)
  | WrongThread => False
  | Blocked r' =>
      Forall (fun p => exists now arrived ready,
                p = PollReturned now arrived ready /\
                elapsed start timeout now = false) script
  end.
Proof.
  induction script as [| p script IH]; intros r; cbn [exec_from].
  - constructor.
  - destruct p as [| now arrived ready].
    + right. right. cbn. auto.
    + destruct (quitRequested (loop (iteration now arrived ready r)))
        eqn:Eq.
      * left. auto.
      * destruct (elapsed start timeout now) eqn:Ee.
        -- right. left. repeat split; try assumption.
           exists now, arrived, ready. cbn. auto.
        -- specialize (IH (iteration now arrived ready r)).
           destruct (exec_from start timeout script
                       (iteration now arrived ready r))
             as [code q r' | | r'].
           ++ destruct IH as [H | [(Hc & Hq & Hn & now' & a' & rd' & Hin & He)
                                  | (Hc & Hn & Hin)]].
              ** left. exact H.
              ** right. left. repeat split; try assumption.
                 exists now', a', rd'. split; [right; exact Hin | exact He].
              ** right. right. repeat split; try assumption.
                 right. exact Hin.
           ++ exact IH.
           ++ constructor; [| exact IH]. exists now, arrived, ready. auto.
Qed.

(** C3. [exec] called on the owning thread, when it returns, returns
    [Success] with the stored quit code, and then quit was requested; or
    [Timeout], and then quit was not requested and the timeout given had
    elapsed when a poll came back; or [GeneralError], and then the poll
    primitive failed.  The three codes differ, and [exec] does return as
    soon as the poll fails, a quit is seen, or the timeout has elapsed:
    it is still blocked only if none of the polls so far failed or came
    back past the timeout. *)
Theorem exec_returns_codes tid timeout start script (l : EventLoop) :
  tid = threadId l ->
  Success <> Timeout /\ Success <> GeneralError /\ Timeout <> GeneralError /\
  match exec tid timeout start script l with
  | Returned code q r' =>
      (code = Success /\ quitRequested (loop r') = true /\
       q = Some (quitCode (loop r')))
      \/
      (code = Timeout /\ quitRequested (loop r') = false /\ q = None /\
       exists now arrived ready,
         In (PollReturned now arrived ready) script /\
         elapsed start timeout now = true)
      \/
      (code = GeneralError /\ q = None /\ In PollFailed script)
  | WrongThread => False
  | Blocked r' =>
      Forall (fun p => exists now arrived ready,
                p = PollReturned now arrived ready /\
                elapsed start timeout now = false) script
  end.
Proof.
  intros ->. split; [discriminate |]. split; [discriminate |].
  split; [discriminate |].
  unfold exec. rewrite Nat.eqb_refl. cbn [negb].
  apply exec_from_codes.
Qed.

End ExecFacts.

Section ExecExamples.
Import EventLoop.

(** One iteration at time 60 with descriptor 4 readable, while thread 5
    then thread 6 posted: the queued call, the two posted release calls
    in that order, the timer, the socket. *)
Example busy_iteration :
  log (iteration 60
         [ForeignPost 5%nat (DeleteLaterEvent 31%positive);
          ForeignPost 6%nat (DeleteLaterEvent 32%positive)]
         [(4, SocketRead)]
         {| loop := busy_loop; log := [] |})
  = [ FiredDeferred (SignalEvent {| cb_name := 7%nat; cb_quit := None |});
      FiredDeferred (DeleteLaterEvent 31%positive);
      FiredDeferred (DeleteLaterEvent 32%positive);
      FiredTimer 1;
      FiredSocket 4 SocketRead ].
Proof. vm_compute. reflexivity. Qed.

(** The scenario of the spec: a single-shot timer at 50 ms and
    [exec(1000)]; the callback fires once and [exec] returns [Timeout]
    when 1000 ms have elapsed. *)
Example exec_timeout :
  match exec 1%nat 1000 0
          [PollReturned 50 [] []; PollReturned 1000 [] []]
          (snd (registerTimer
                  {| req_func := {| cb_name := 9%nat; cb_quit := None |};
                     req_timeout := 50; req_flags := SingleShot;
                     req_now := 0 |} (loop_at 1))) with
  | Returned code q r => code = Timeout /\ q = None /\ log r = [FiredTimer 1]
  | _ => False
  end.
Proof. vm_compute. auto. Qed.

Example exec_quit_from_other_thread :
  match exec 1%nat (-1) 0
          [PollReturned 10 [] []; PollReturned 20 [ForeignQuit 2%nat 3] []]
          (loop_at 1) with
  | Returned code q r => code = Success /\ q = Some 3
  | _ => False
  end.
Proof. vm_compute. auto. Qed.

Example exec_poll_failure :
  match exec 1%nat (-1) 0 [PollReturned 10 [] []; PollFailed] (loop_at 1)
  with
  | Returned code q r => code = GeneralError /\ q = None
  | _ => False
  end.
Proof. vm_compute. auto. Qed.

Lemma exec_returns_codes_witness :
  match exec 1%nat 1000 0
          [PollReturned 50 [] [(4, SocketRead)]; PollReturned 1000 [] []]
          busy_loop with
  | Returned code q r =>
      (code = Success /\ quitRequested (loop r) = true /\
       q = Some (quitCode (loop r)))
      \/
      (code = Timeout /\ quitRequested (loop r) = false /\ q = None /\
       exists now arrived ready,
         In (PollReturned now arrived ready)
            [PollReturned 50 [] [(4, SocketRead)]; PollReturned 1000 [] []]
         /\ elapsed 0 1000 now = true)
      \/
      (code = GeneralError /\ q = None /\
       In PollFailed
          [PollReturned 50 [] [(4, SocketRead)]; PollReturned 1000 [] []])
  | WrongThread => False
  | Blocked r =>
      Forall (fun p => exists now arrived ready,
                p = PollReturned now arrived ready /\
                elapsed 0 1000 now = false)
             [PollReturned 50 [] [(4, SocketRead)]; PollReturned 1000 [] []]
  end.
Proof.
  apply (exec_returns_codes 1%nat 1000 0
           [PollReturned 50 [] [(4, SocketRead)]; PollReturned 1000 [] []]
           busy_loop).
  reflexivity.
Defined.

Lemma exec_iteration_order_witness :
  exists timers sockets,
    log (iteration 60 [ForeignPost 5%nat (DeleteLaterEvent 31%positive)]
           [(4, SocketRead)] {| loop := busy_loop; log := [] |})
    = map FiredDeferred
          (events busy_loop ++ [DeleteLaterEvent 31%positive])
      ++ timers ++ sockets /\
    Forall (fun f => is_timer f = true) timers /\
    Forall (fun f => is_socket f = true) sockets.
Proof.
  destruct (exec_iteration_order 60
              [ForeignPost 5%nat (DeleteLaterEvent 31%positive)]
              [(4, SocketRead)] {| loop := busy_loop; log := [] |})
    as (timers & sockets & Hl & _ & _ & Ht & Hs & _).
  exists timers, sockets. auto.
Defined.

End ExecExamples.

(** * Properties of the stream operators *)

Section OperatorFacts.
Import Serializer Operators.

Lemma byte_val_range b : 0 <= byte_val b < 256.
Proof.
  unfold byte_val. pose proof (Byte.to_N_bounded b). lia.
Qed.

Lemma byte_val_of z : byte_val (byte_of z) = z mod 256.
Proof.
  unfold byte_val, byte_of.
  pose proof (Z.mod_pos_bound z 256 ltac:(lia)) as Hr.
  destruct (Byte.of_N (Z.to_N (z mod 256))) as [b |] eqn:E.
  - apply Byte.to_of_N in E. rewrite E. lia.
  - apply Byte.of_N_None_iff in E. lia.
Qed.

Lemma le_bytes_length n : forall v, length (le_bytes n v) = n.
Proof. induction n as [| n IH]; intros v; cbn; [| rewrite IH]; reflexivity. Qed.

Lemma le_value_bytes n : forall v,
  le_value (le_bytes n v) = v mod 256 ^ Z.of_nat n.
Proof.
  induction n as [| n IH]; intros v.
  - cbn. rewrite Z.mod_1_r. reflexivity.
  - cbn [le_bytes le_value]. rewrite byte_val_of, IH.
    rewrite Nat2Z.inj_succ, Z.pow_succ_r by lia.
    rewrite Z.rem_mul_r by lia. reflexivity.
Qed.

Lemma le_value_bytes_4 v : 0 <= v < 2 ^ 32 -> le_value (le_bytes 4 v) = v.
Proof.
  intros Hv. rewrite le_value_bytes. apply Z.mod_small.
  change (256 ^ Z.of_nat 4) with (2 ^ 32). exact Hv.
Qed.

Lemma to_uint32_small n : 0 <= n < 2 ^ 32 -> to_uint32 n = n.
Proof. intros H. apply Z.mod_small. exact H. Qed.

Lemma to_int_small n : 0 <= n <= INT_MAX -> to_int n = n.
Proof.
  unfold to_int, INT_MAX. intros H. rewrite Z.mod_small by lia. lia.
Qed.

Lemma to_int_large n : 2 ^ 31 <= n < 2 ^ 32 -> to_int n = n - 2 ^ 32.
Proof.
  unfold to_int. intros H.
  replace (n + 2 ^ 31) with (n - 2 ^ 31 + 1 * 2 ^ 32) by lia.
  rewrite Z.mod_add by lia. rewrite Z.mod_small by lia. lia.
Qed.

(** *** Writing into a string *)

Lemma write_to_string out data len :
  0 < len -> len = Z.of_nat (length data) ->
  Serializer.write (to_string out) data len
  = Ok {| Serializer.ret := true;
          Serializer.calls := [ Serializer.mkBufCall data len ];
          Serializer.after := to_string (out ++ data) |}.
Proof.
  intros Hl Hd. unfold Serializer.write, to_string, Serializer.make.
  destruct (len <=? 0) eqn:E; [apply Z.leb_le in E; lia |].
  cbn. rewrite Hd, Nat2Z.id, firstn_all. reflexivity.
Qed.

Lemma put_native_to_string out object size :
  0 < size -> size = Z.of_nat (length object) ->
  put_native size object (to_string out) = Ok (to_string (out ++ object)).
Proof.
  intros Hs Hl. unfold put_native.
  rewrite write_to_string by assumption. reflexivity.
Qed.

(** *** Reading from memory *)

Lemma advanced_0 d : advanced d 0 = d.
Proof.
  unfold advanced. cbn. rewrite Z.add_0_r. destruct d; reflexivity.
Qed.

Lemma advanced_advanced d a b :
  advanced (advanced d a) b = advanced d (a + b).
Proof.
  unfold advanced, Deserializer.set_mPos. cbn. f_equal. lia.
Qed.

Lemma holds_bound d bytes rest :
  holds d bytes rest ->
  Deserializer.mPos d + Z.of_nat (length bytes) + Z.of_nat (length rest)
  = Deserializer.mLength d.
Proof.
  intros ((Hf & Hmax & Hpos & Hdata) & data & Hd & Hdrop).
  rewrite Hd in Hdata. apply (f_equal length) in Hdrop.
  rewrite length_drop, length_app in Hdrop. lia.
Qed.

Lemma holds_advanced d a b rest :
  holds d (a ++ b) rest -> holds (advanced d (length a)) b rest.
Proof.
  intros Hh. pose proof (holds_bound _ _ _ Hh) as Hb.
  rewrite length_app in Hb.
  destruct Hh as ((Hf & Hmax & Hpos & Hdata) & data & Hd & Hdrop).
  split.
  - unfold Deserializer.memory_backed, advanced. cbn.
    repeat split; try assumption; lia.
  - exists data. split; [exact Hd |].
    unfold advanced. cbn.
    rewrite Z2Nat.inj_add, Nat2Z.id by lia.
    rewrite <- drop_drop, Hdrop, <- app_assoc, drop_app_length.
    reflexivity.
Qed.

(** Reading the bytes that are there. *)
Lemma read_holds d bytes rest :
  holds d bytes rest ->
  Deserializer.read d (Z.of_nat (length bytes))
  = Ok {| Deserializer.target := bytes;
          Deserializer.count := Z.of_nat (length bytes);
          Deserializer.self := advanced d (length bytes) |}.
Proof.
  intros Hh. pose proof (holds_bound _ _ _ Hh) as Hb.
  destruct Hh as ((Hf & Hmax & Hpos & Hdata) & data & Hd & Hdrop).
  rewrite Hd in Hdata.
  unfold Deserializer.read.
  destruct (Z.of_nat (length bytes) =? 0) eqn:E0.
  - apply Z.eqb_eq in E0.
    assert (length bytes = 0%nat) as Hl by lia.
    rewrite Hl. destruct bytes; [| discriminate].
    rewrite advanced_0. reflexivity.
  - rewrite Hd. unfold int_add, in_int.
    destruct ((INT_MIN <=? Deserializer.mPos d + Z.of_nat (length bytes))
              && (Deserializer.mPos d + Z.of_nat (length bytes) <=? INT_MAX))
      eqn:Ei.
    2:{ apply andb_false_iff in Ei as [Ei | Ei]; apply Z.leb_gt in Ei;
        unfold INT_MIN in *; lia. }
    destruct (Deserializer.mPos d + Z.of_nat (length bytes)
              <=? Deserializer.mLength d) eqn:Ea;
      [| apply Z.leb_gt in Ea; lia].
    rewrite to_size_t_nonneg by lia.
    destruct (memcpy_in_range data (Deserializer.mPos d)
                (Z.of_nat (length bytes))) as (Hm & _); [lia .. |].
    rewrite Hm, Hdrop, Nat2Z.id, take_app_length. reflexivity.
Qed.

Lemma get_size_holds d n rest :
  0 <= n < 2 ^ 32 -> holds d (le_bytes 4 n) rest ->
  get_size d = Ok (n, advanced d 4).
Proof.
  intros Hn Hh. unfold get_size, get_local.
  pose proof (read_holds d (le_bytes 4 n) rest Hh) as Hr.
  rewrite le_bytes_length in Hr. change (Z.of_nat 4) with 4 in Hr.
  rewrite Hr. cbn [and_then Deserializer.target Deserializer.self].
  rewrite le_bytes_length. change (Z.of_nat 4 =? 4) with true.
  cbn [and_then]. rewrite le_value_bytes_4 by exact Hn. reflexivity.
Qed.

Lemma holds_assoc d a b rest :
  holds d (a ++ b) rest <-> holds d a (b ++ rest).
Proof. unfold holds. rewrite <- app_assoc. reflexivity. Qed.

Lemma resize_length {A : Type} n (fill : A) l :
  length (resize n fill l) = Z.to_nat n.
Proof. unfold resize. rewrite length_app, length_take, length_replicate. lia. Qed.

Lemma overwrite_all found old :
  (length old <= length found)%nat -> overwrite found old = found.
Proof.
  intros H. unfold overwrite. rewrite drop_ge by exact H.
  apply app_nil_r.
Qed.

(** *** The native types *)

Lemma uint32_shl v out :
  shl StringBuffer StringBuffer_Buffer v (to_string out)
  = Ok (to_string (out ++ le_bytes 4 v)).
Proof.
  cbn [shl uint32_t]. apply put_native_to_string; [lia |].
  rewrite le_bytes_length. reflexivity.
Qed.

Lemma uint32_shr v v0 d rest :
  0 <= v < 2 ^ 32 -> holds d (le_bytes 4 v) rest ->
  shr v0 d = Ok (v, advanced d 4).
Proof.
  intros Hv Hh. cbn [shr uint32_t]. unfold get_native.
  pose proof (read_holds d (le_bytes 4 v) rest Hh) as Hr.
  rewrite le_bytes_length in Hr. change (Z.of_nat 4) with 4 in Hr.
  rewrite Hr. cbn [and_then Deserializer.target Deserializer.self].
  rewrite overwrite_all by (rewrite !le_bytes_length; lia).
  rewrite le_value_bytes_4 by exact Hv. reflexivity.
Qed.

#[export] Instance uint32_RoundTrip : RoundTrip Z.
Proof.
  refine {| enc := le_bytes 4; fits := fun v => 0 <= v < 2 ^ 32 |}.
  - intros t out _. apply uint32_shl.
  - intros t t0 d rest Hf Hh. rewrite le_bytes_length.
    eapply uint32_shr; eassumption.
  - intros _. split; [cbn; lia |]. intros t.
    split; [reflexivity |]. split; [reflexivity |].
    intros Hf. apply le_value_bytes_4. exact Hf.
Defined.

#[export] Instance unsigned_char_RoundTrip : RoundTrip byte.
Proof.
  refine {| enc := fun c => [c]; fits := fun _ => True |}.
  - intros t out _. cbn [shl unsigned_char].
    apply put_native_to_string; [lia | reflexivity].
  - intros t t0 d rest _ Hh. cbn [shr unsigned_char]. unfold get_native.
    pose proof (read_holds d [t] rest Hh) as Hr. cbn [length] in Hr.
    change (Z.of_nat 1) with 1 in Hr. rewrite Hr. reflexivity.
  - intros _. split; [cbn; lia |]. intros t. auto.
Defined.

(** *** String *)

Lemma put_String_appends string out :
  Z.of_nat (length string) <= INT_MAX ->
  put_String string (to_string out)
  = Ok (to_string (out ++ enc_String string)).
Proof.
  intros Hf. unfold put_String, enc_String, INT_MAX in *.
  rewrite to_uint32_small by lia.
  rewrite put_native_to_string
    by (rewrite ?le_bytes_length; reflexivity || lia).
  cbn [and_then].
  destruct (Z.of_nat (length string) =? 0) eqn:E0.
  - apply Z.eqb_eq in E0. destruct string; [| cbn in E0; lia].
    rewrite app_nil_r. reflexivity.
  - apply Z.eqb_neq in E0.
    rewrite to_int_small by (unfold INT_MAX; lia).
    rewrite write_to_string by lia. cbn [and_then Serializer.after].
    rewrite <- app_assoc. reflexivity.
Qed.

Lemma get_String_reads string string0 d rest :
  Z.of_nat (length string) <= INT_MAX ->
  holds d (enc_String string) rest ->
  get_String string0 d = Ok (string, advanced d (length (enc_String string))).
Proof.
  intros Hf Hh. unfold enc_String, INT_MAX in *.
  rewrite length_app, le_bytes_length.
  unfold get_String.
  rewrite (get_size_holds d (Z.of_nat (length string)) (string ++ rest))
    by (lia || apply holds_assoc; exact Hh).
  cbn [and_then].
  destruct (Z.of_nat (length string) =? 0) eqn:E0.
  - apply Z.eqb_eq in E0. destruct string; [| cbn in E0; lia].
    cbn [length]. reflexivity.
  - rewrite to_int_small by (unfold INT_MAX; lia).
    pose proof (holds_advanced d (le_bytes 4 (Z.of_nat (length string)))
                  string rest Hh) as Hh'.
    rewrite le_bytes_length in Hh'.
    rewrite (read_holds _ string rest Hh').
    cbn [and_then Deserializer.target Deserializer.self].
    rewrite overwrite_all by (rewrite resize_length; lia).
    rewrite advanced_advanced. reflexivity.
Qed.

#[export] Instance String_RoundTrip : RoundTrip String.
Proof.
  refine {| enc := enc_String;
            fits := fun s => Z.of_nat (length s) <= INT_MAX |}.
  - intros t out Hf. apply put_String_appends. exact Hf.
  - intros t t0 d rest Hf Hh. apply get_String_reads with rest; assumption.
  - intros Hne. exfalso. apply Hne. reflexivity.
Defined.

(** *** List<T> *)

Lemma chunks_concat (raws : list (list byte)) (n : nat) junk :
  (0 < n)%nat -> Forall (fun r => length r = n) raws ->
  chunks (length raws) n (concat raws ++ junk) = raws.
Proof.
  intros Hn. induction raws as [| r raws IH]; intros Hall;
    [reflexivity |].
  inversion Hall as [| ? ? Hr Hrest]; subst.
  cbn [length chunks concat]. rewrite <- app_assoc.
  destruct r as [| b r]; [cbn in Hn; lia |].
  cbn [app]. change (b :: r ++ concat raws ++ junk)
    with ((b :: r) ++ concat raws ++ junk).
  rewrite take_app_length, drop_app_length, IH by exact Hrest.
  reflexivity.
Qed.

Section ListOf.
Context {T : Type} {ST : Serial T} {RT : RoundTrip T}.

Lemma put_each_appends (l : list T) : forall out,
  Forall fits l ->
  put_each l (to_string out) = Ok (to_string (out ++ concat (map enc l))).
Proof.
  induction l as [| x l IH]; intros out Hall; cbn [put_each map concat].
  - rewrite app_nil_r. reflexivity.
  - inversion Hall as [| ? ? Hx Hl]; subst.
    rewrite shl_appends by exact Hx. cbn [and_then].
    rewrite IH by exact Hl. rewrite <- app_assoc. reflexivity.
Qed.

Lemma get_each_reads (l : list T) : forall (l0 : list T) d rest,
  length l0 = length l -> Forall fits l ->
  holds d (concat (map enc l)) rest ->
  get_each l0 d = Ok (l, advanced d (length (concat (map enc l)))).
Proof.
  induction l as [| x l IH]; intros l0 d rest Hlen Hall Hh.
  - destruct l0; [| discriminate]. cbn. rewrite advanced_0. reflexivity.
  - destruct l0 as [| x0 l0]; [discriminate |].
    inversion Hall as [| ? ? Hx Hl]; subst.
    cbn [map concat] in Hh |- *. cbn [get_each].
    rewrite (shr_reads x x0 d (concat (map enc l) ++ rest))
      by (exact Hx || apply holds_assoc; exact Hh).
    cbn [and_then].
    rewrite (IH l0 (advanced d (length (enc x))) rest)
      by (auto using holds_advanced).
    cbn [and_then]. rewrite advanced_advanced, length_app. reflexivity.
Qed.

Lemma data_of_enc (l : list T) :
  FixedSize <> 0 ->
  data_of l = concat (map enc l) /\
  Z.of_nat (length (data_of l)) = FixedSize * Z.of_nat (length l) /\
  Forall (fun r => length r = Z.to_nat FixedSize) (map raw l).
Proof.
  intros Hfix. destruct (fixed_raw Hfix) as (Hpos & Hraw).
  unfold data_of. induction l as [| x l (IH1 & IH2 & IH3)].
  - cbn. split; [reflexivity |]. split; [lia | constructor].
  - destruct (Hraw x) as (He & Hl & _).
    cbn [map concat length]. rewrite length_app, IH1, He.
    split; [reflexivity |]. split; [| constructor; [lia | exact IH3]].
    rewrite <- IH1. lia.
Qed.

Lemma put_List_appends (l : list T) out :
  fits_List fits l ->
  put_List l (to_string out) = Ok (to_string (out ++ enc_List enc l)).
Proof.
  intros (Hlen & Hall & Hfixed). unfold put_List, enc_List.
  rewrite to_uint32_small by lia.
  rewrite put_native_to_string
    by (rewrite ?le_bytes_length; reflexivity || lia).
  cbn [and_then].
  destruct (Z.of_nat (length l) =? 0) eqn:E0.
  - apply Z.eqb_eq in E0. destruct l; [| cbn in E0; lia].
    cbn [map concat]. rewrite app_nil_r. reflexivity.
  - apply Z.eqb_neq in E0.
    destruct (FixedSize =? 0) eqn:Ef; cbn [negb].
    + rewrite Nat2Z.id, firstn_all.
      rewrite put_each_appends by exact Hall.
      rewrite <- app_assoc. reflexivity.
    + apply Z.eqb_neq in Ef. specialize (Hfixed Ef).
      destruct (fixed_raw Ef) as (Hpos & _).
      destruct (data_of_enc l Ef) as (Hd & Hdl & _).
      unfold INT_MAX in Hfixed.
      rewrite to_uint32_small by nia.
      rewrite to_int_small by (unfold INT_MAX; nia).
      rewrite write_to_string by nia.
      cbn [and_then Serializer.after].
      rewrite Hd, <- app_assoc. reflexivity.
Qed.

Lemma get_List_reads (l l0 : list T) d rest :
  fits_List fits l -> holds d (enc_List enc l) rest ->
  get_List l0 d = Ok (l, advanced d (length (enc_List enc l))).
Proof.
  intros (Hlen & Hall & Hfixed) Hh. unfold enc_List in *.
  rewrite length_app, le_bytes_length. unfold get_List.
  rewrite (get_size_holds d (Z.of_nat (length l))
             (concat (map enc l) ++ rest))
    by (lia || apply holds_assoc; exact Hh).
  cbn [and_then].
  pose proof (holds_advanced d (le_bytes 4 (Z.of_nat (length l)))
                (concat (map enc l)) rest Hh) as Hh'.
  rewrite le_bytes_length in Hh'.
  destruct (Z.of_nat (length l) =? 0) eqn:E0.
  - apply Z.eqb_eq in E0. destruct l; [| cbn in E0; lia].
    cbn [length map concat]. reflexivity.
  - apply Z.eqb_neq in E0.
    destruct (FixedSize =? 0) eqn:Ef; cbn [negb].
    + rewrite (get_each_reads l _ (advanced d 4) rest);
        [| rewrite resize_length; lia | exact Hall | exact Hh'].
      rewrite advanced_advanced. reflexivity.
    + apply Z.eqb_neq in Ef. specialize (Hfixed Ef).
      destruct (fixed_raw Ef) as (Hpos & Hraw).
      destruct (data_of_enc l Ef) as (Hd & Hdl & Hrl).
      unfold INT_MAX in Hfixed.
      rewrite to_uint32_small by nia.
      rewrite to_int_small by (unfold INT_MAX; nia).
      rewrite <- Hdl, Hd.
      rewrite (read_holds _ _ rest Hh').
      cbn [and_then Deserializer.target Deserializer.self].
      rewrite advanced_advanced. f_equal. f_equal.
      unfold overwrite. rewrite <- Hd. unfold data_of at 1.
      rewrite resize_length, Nat2Z.id.
      rewrite <- (length_map raw l).
      rewrite chunks_concat; [| lia | exact Hrl].
      rewrite map_map. clear - Hall Hraw.
      induction Hall as [| x l Hx Hl IH]; [reflexivity |].
      cbn [map]. rewrite IH. f_equal. apply Hraw. exact Hx.
Qed.

#[export] Instance List_RoundTrip : RoundTrip (list T).
Proof.
  refine {| enc := enc_List enc; fits := fits_List fits |}.
  - intros t out Hf. apply put_List_appends. exact Hf.
  - intros t t0 d rest Hf Hh. apply get_List_reads with rest; assumption.
  - intros Hne. exfalso. apply Hne. reflexivity.
Defined.

End ListOf.

(** *** std::pair *)

Section PairOf.
Context {A C : Type} {SA : Serial A} {SC : Serial C}
        {RA : RoundTrip A} {RC : RoundTrip C}.

Lemma put_pair_appends (p : A * C) out :
  fits (fst p) -> fits (snd p) ->
  shl StringBuffer StringBuffer_Buffer p (to_string out)
  = Ok (to_string (out ++ enc (fst p) ++ enc (snd p))).
Proof.
  intros Ha Hc. cbn [shl pair_Serial].
  rewrite shl_appends by exact Ha. cbn [and_then].
  rewrite shl_appends by exact Hc. rewrite <- app_assoc. reflexivity.
Qed.

Lemma get_pair_reads (p p0 : A * C) d rest :
  fits (fst p) -> fits (snd p) ->
  holds d (enc (fst p) ++ enc (snd p)) rest ->
  shr p0 d
  = Ok (p, advanced d (length (enc (fst p) ++ enc (snd p)))).
Proof.
  intros Ha Hc Hh. cbn [shr pair_Serial].
  rewrite (shr_reads (fst p) (fst p0) d (enc (snd p) ++ rest))
    by (exact Ha || apply holds_assoc; exact Hh).
  cbn [and_then].
  rewrite (shr_reads (snd p) (snd p0) _ rest)
    by (exact Hc || apply holds_advanced; exact Hh).
  cbn [and_then]. rewrite advanced_advanced, length_app.
  destruct p. reflexivity.
Qed.

#[export] Instance pair_RoundTrip : RoundTrip (A * C).
Proof.
  refine {| enc := fun p => enc (fst p) ++ enc (snd p);
            fits := fun p => fits (fst p) /\ fits (snd p) |}.
  - intros t out (Ha & Hc). apply put_pair_appends; assumption.
  - intros t t0 d rest (Ha & Hc) Hh.
    apply get_pair_reads with rest; assumption.
  - intros Hne. exfalso. apply Hne. reflexivity.
Defined.

End PairOf.

End OperatorFacts.

(** * Round trips and malformed input *)

Section OperatorTheorems.
Import Serializer Operators.

Lemma narrow_int_small n : 0 <= n <= INT_MAX -> narrow_int n = n.
Proof.
  unfold narrow_int, INT_MAX. intros H.
  rewrite Z.mod_small by lia. lia.
Qed.

(** X1. A [uint32_t] written with [operator<<] into a string adds its
    four bytes to the end, and [operator>>] on memory holding those bytes
    at the current position reads the value back into any variable and
    moves on by four. *)
Theorem uint32_round_trip (v v0 : Z) out d rest :
  0 <= v < 2 ^ 32 ->
  shl StringBuffer StringBuffer_Buffer v (to_string out)
  = Ok (to_string (out ++ le_bytes 4 v)) /\
  (holds d (le_bytes 4 v) rest -> shr v0 d = Ok (v, advanced d 4)).
Proof.
  intros Hv. split; [apply uint32_shl |].
  intros Hh. apply uint32_shr with rest; assumption.
Qed.

(** X2. A [String] of at most [INT_MAX] characters written with
    [operator<<] into a string adds its 32-bit size and then its
    characters (the size alone when it is empty); [pos()] is then the
    new length of the string converted to [int], which is the [pos()]
    before plus four plus the size as long as the new length is at most
    [INT_MAX]; [operator>>] on memory holding those bytes reads the same
    characters back into any [String], whatever it held, and moves on by
    as many bytes. *)
Theorem String_round_trip (string string0 : String) out d rest :
  Z.of_nat (length string) <= INT_MAX ->
  put_String string (to_string out)
  = Ok (to_string (out ++ enc_String string)) /\
  pos (to_string (out ++ enc_String string))
  = narrow_int (Z.of_nat (length out) + 4 + Z.of_nat (length string)) /\
  (Z.of_nat (length out) + 4 + Z.of_nat (length string) <= INT_MAX ->
   pos (to_string (out ++ enc_String string))
   = pos (to_string out) + 4 + Z.of_nat (length string)) /\
  (holds d (enc_String string) rest ->
   get_String string0 d
   = Ok (string, advanced d (4 + length string))).
Proof.
  intros Hf. split; [apply put_String_appends; exact Hf |].
  assert (Hp : pos (to_string (out ++ enc_String string))
               = narrow_int (Z.of_nat (length out) + 4
                             + Z.of_nat (length string))).
  { unfold pos, to_string, make, enc_String.
    cbn [buf_pos StringBuffer_Buffer mBuffer mString].
    rewrite !length_app, le_bytes_length. f_equal. lia. }
  split; [exact Hp |]. split.
  - intros Hb. rewrite Hp. unfold pos, to_string, make.
    cbn [buf_pos StringBuffer_Buffer mBuffer mString].
    rewrite !narrow_int_small by lia. reflexivity.
  - intros Hh. rewrite (get_String_reads string string0 d rest Hf Hh).
    unfold enc_String. rewrite length_app, le_bytes_length. reflexivity.
Qed.

(** X3. A [List<T>] of elements whose operators are inverse to each
    other, of fewer than 2^32 elements (and of at most [INT_MAX] bytes
    when [T] has a fixed size), written with [operator<<] adds its 32-bit
    size and then its elements in order, as one block for a fixed-size
    [T] and element by element otherwise; [operator>>] reads the same
    list back into any list, whatever its length and contents were. *)
Theorem List_round_trip {T : Type} {ST : Serial T} {RT : RoundTrip T}
    (l l0 : list T) out d rest :
  Z.of_nat (length l) < 2 ^ 32 -> Forall fits l ->
  (FixedSize <> 0 -> FixedSize * Z.of_nat (length l) <= INT_MAX) ->
  put_List l (to_string out) = Ok (to_string (out ++ enc_List enc l)) /\
  (holds d (enc_List enc l) rest ->
   get_List l0 d = Ok (l, advanced d (length (enc_List enc l)))).
Proof.
  intros Hlen Hall Hfixed.
  assert (Hf : fits_List fits l) by (unfold fits_List; auto).
  split; [apply put_List_appends; exact Hf |].
  intros Hh. apply get_List_reads with rest; assumption.
Qed.

(** X4. A [std::pair] whose two types have inverse operators is written
    as its first then its second member and read back the same. *)
Theorem pair_round_trip {A C : Type} {SA : Serial A} {SC : Serial C}
    {RA : RoundTrip A} {RC : RoundTrip C} (p p0 : A * C) out d rest :
  fits (fst p) -> fits (snd p) ->
  shl StringBuffer StringBuffer_Buffer p (to_string out)
  = Ok (to_string (out ++ enc (fst p) ++ enc (snd p))) /\
  (holds d (enc (fst p) ++ enc (snd p)) rest ->
   shr p0 d = Ok (p, advanced d (length (enc (fst p) ++ enc (snd p))))).
Proof.
  intros Ha Hc. split; [apply put_pair_appends; assumption |].
  intros Hh. apply get_pair_reads with rest; assumption.
Qed.

(** X5. [operator>>] for [String] on a size prefix larger than the bytes
    that follow it never returns: the assertion of [read] fails when
    position plus size is still an [int]; otherwise (and so for every
    prefix of 2^31 or more, which [read] receives as a negative length)
    the behaviour is undefined. *)
Theorem get_String_truncated (n : Z) (string0 : String) d rest :
  Z.of_nat (length rest) < n < 2 ^ 32 ->
  holds d (le_bytes 4 n) rest ->
  get_String string0 d
  = if Deserializer.mPos d + 4 + n <=? INT_MAX then AssertFail
    else Undefined.
Proof.
  intros Hn Hh. unfold get_String.
  rewrite (get_size_holds d n rest) by (lia || exact Hh).
  cbn [and_then].
  destruct (n =? 0) eqn:E0; [apply Z.eqb_eq in E0; lia |].
  pose proof (holds_bound _ _ _ Hh) as Hb. rewrite le_bytes_length in Hb.
  destruct Hh as ((Hf & Hmax & Hpos & Hdata) & data & Hd & Hdrop).
  rewrite Hd in Hdata. unfold INT_MAX in *.
  unfold Deserializer.read, advanced.
  cbn [Deserializer.set_mPos Deserializer.mData Deserializer.mPos
       Deserializer.mLength Deserializer.mFile].
  rewrite Hd. change (Z.of_nat 4) with 4.
  destruct (Z_lt_le_dec n (2 ^ 31)) as [Hsmall | Hlarge].
  - rewrite to_int_small by (unfold INT_MAX; lia).
    rewrite E0. unfold int_add, in_int, INT_MIN, INT_MAX.
    destruct (Deserializer.mPos d + 4 + n <=? 2 ^ 31 - 1) eqn:Ei.
    + apply Z.leb_le in Ei.
      destruct (- 2 ^ 31 <=? Deserializer.mPos d + 4 + n) eqn:Ej;
        [| apply Z.leb_gt in Ej; lia].
      cbn [andb and_then].
      destruct (Deserializer.mPos d + 4 + n <=? Deserializer.mLength d)
        eqn:Ea; [apply Z.leb_le in Ea; lia | reflexivity].
    + rewrite andb_false_r. reflexivity.
  - rewrite to_int_large by lia.
    destruct (n - 2 ^ 32 =? 0) eqn:E1; [apply Z.eqb_eq in E1; lia |].
    destruct (Deserializer.mPos d + 4 + n <=? 2 ^ 31 - 1) eqn:Ei;
      [apply Z.leb_le in Ei; lia |].
    unfold int_add, in_int, INT_MIN, INT_MAX.
    assert (Ej : (- 2 ^ 31 <=? Deserializer.mPos d + 4 + (n - 2 ^ 32))
                 && (Deserializer.mPos d + 4 + (n - 2 ^ 32) <=? 2 ^ 31 - 1)
                 = true).
    { apply andb_true_iff. split; apply Z.leb_le; lia. }
    rewrite Ej.
    assert (Ea : (Deserializer.mPos d + 4 + (n - 2 ^ 32)
                  <=? Deserializer.mLength d) = true)
      by (apply Z.leb_le; lia).
    rewrite Ea. unfold memcpy, to_size_t.
    replace ((n - 2 ^ 32) mod 2 ^ 64) with (n - 2 ^ 32 + 2 ^ 64).
    2:{ symmetry. rewrite <- (Z.mod_add _ 1) by lia.
        apply Z.mod_small. lia. }
    assert (Ek : (Deserializer.mPos d + 4 + (n - 2 ^ 32 + 2 ^ 64)
                  <=? Z.of_nat (length data)) = false)
      by (apply Z.leb_gt; lia).
    rewrite Ek, andb_false_r. reflexivity.
Qed.

(** X6. [Serializer::write(const String &)] fails its assertion exactly
    on the empty string (among strings of at most [INT_MAX] characters),
    whatever the state of the Serializer; [operator<<] does not: for the
    empty string it writes the size and never calls [write] with a
    length of zero. *)
Theorem write_String_empty {B : Type} {H : Buffer B}
    (s : Serializer B) (string : String) :
  Z.of_nat (length string) <= INT_MAX ->
  (write_String s string = AssertFail <-> string = []) /\
  put_String [] s = put_native 4 (le_bytes 4 0) s /\
  put_String [] s <> AssertFail.
Proof.
  intros Hf. split; [| split].
  - unfold write_String. rewrite to_int_small by lia. unfold write.
    destruct string as [| c string].
    + cbn. split; reflexivity.
    + destruct (Z.of_nat (length (c :: string)) <=? 0) eqn:E;
        [apply Z.leb_le in E; cbn [length] in E; lia |].
      split; [| discriminate].
      destruct (mError s); [discriminate |].
      destruct (buf_write _ _ _) as [b ok]. destruct ok; discriminate.
  - unfold put_String. cbn [length Z.of_nat]. unfold to_uint32.
    rewrite Z.mod_0_l by lia. cbn [Z.eqb].
    destruct (put_native 4 (le_bytes 4 0) s); reflexivity.
  - unfold put_String, put_native. cbn [length Z.of_nat].
    unfold to_uint32. rewrite Z.mod_0_l by lia. cbn [Z.eqb].
    unfold write. cbn [Z.leb Z.compare].
    destruct (mError s); cbn [and_then]; [discriminate |].
    destruct (buf_write _ _ _) as [b ok]. destruct ok; discriminate.
Qed.


(** X8. A [Path] of at most [INT_MAX] characters is written by its
    [operator<<] exactly as the [String] of the same characters is, on
    any buffer and in any state of the Serializer, so that the one
    reading operator serves both. *)
Theorem put_Path_as_String {B : Type} {H : Buffer B}
    (s : Serializer B) (path : String) :
  Z.of_nat (length path) <= INT_MAX ->
  put_Path path s = put_String path s.
Proof.
  intros Hf. unfold put_Path, put_String, INT_MAX in *.
  rewrite to_uint32_small by lia. reflexivity.
Qed.

(** *** Reads one after the other *)

Lemma holds_window d data n :
  Deserializer.memory_backed d -> Deserializer.mData d = Some data ->
  0 <= n -> Deserializer.mPos d + n <= Deserializer.mLength d ->
  holds d (take (Z.to_nat n) (drop (Z.to_nat (Deserializer.mPos d)) data))
          (drop (Z.to_nat n) (drop (Z.to_nat (Deserializer.mPos d)) data))
  /\
  length (take (Z.to_nat n) (drop (Z.to_nat (Deserializer.mPos d)) data))
  = Z.to_nat n.
Proof.
  intros Hm Hd Hn Hle. split.
  - split; [exact Hm |]. exists data. split; [exact Hd |].
    rewrite take_drop. reflexivity.
  - destruct Hm as (_ & _ & Hpos & Hdata). rewrite Hd in Hdata.
    rewrite length_take, length_drop. lia.
Qed.

Lemma read_window d data n :
  Deserializer.memory_backed d -> Deserializer.mData d = Some data ->
  0 <= n -> Deserializer.mPos d + n <= Deserializer.mLength d ->
  Deserializer.read d n
  = Ok {| Deserializer.target :=
            take (Z.to_nat n) (drop (Z.to_nat (Deserializer.mPos d)) data);
          Deserializer.count := n;
          Deserializer.self := advanced d (Z.to_nat n) |}.
Proof.
  intros Hm Hd Hn Hle.
  destruct (holds_window d data n Hm Hd Hn Hle) as (Hh & Hl).
  pose proof (read_holds _ _ _ Hh) as Hr.
  rewrite Hl, Z2Nat.id in Hr by lia. exact Hr.
Qed.

(** X9. On a memory-backed Deserializer, reading [a] bytes and then [b]
    bytes gives, put together, the bytes of one read of [a + b], and
    leaves the object in the same state. *)
Theorem read_then_read (d : Deserializer.Deserializer) (a b : Z) g :
  Deserializer.memory_backed d -> 0 <= a -> 0 <= b ->
  Deserializer.read d (a + b) = Ok g ->
  exists ga gb,
    Deserializer.read d a = Ok ga /\
    Deserializer.read (Deserializer.self ga) b = Ok gb /\
    Deserializer.target g
    = Deserializer.target ga ++ Deserializer.target gb /\
    Deserializer.self g = Deserializer.self gb.
Proof.
  intros Hm Ha Hb Hr.
  destruct (Deserializer.mData d) as [data |] eqn:Hd.
  - assert (Hle : Deserializer.mPos d + (a + b) <= Deserializer.mLength d).
    { destruct (Z.eq_dec (a + b) 0) as [E | E];
        [destruct Hm as (_ & _ & Hpos & _); lia |].
      unfold Deserializer.read in Hr.
      destruct (a + b =? 0) eqn:E0; [apply Z.eqb_eq in E0; lia |].
      rewrite Hd in Hr.
      destruct (int_add (Deserializer.mPos d) (a + b)) as [e | |] eqn:Ei;
        try discriminate.
      unfold int_add in Ei.
      destruct (in_int (Deserializer.mPos d + (a + b))); [| discriminate].
      injection Ei as <-.
      destruct (Deserializer.mPos d + (a + b) <=? Deserializer.mLength d)
        eqn:Ea; [apply Z.leb_le in Ea; exact Ea | discriminate]. }
    rewrite (read_window d data (a + b) Hm Hd) in Hr by lia.
    injection Hr as <-.
    rewrite (read_window d data a Hm Hd) by lia.
    destruct (holds_window d data (a + b) Hm Hd) as (Hh & _); [lia .. |].
    assert (Hm' : Deserializer.memory_backed (advanced d (Z.to_nat a))).
    { destruct Hm as (Hf & Hmax & Hpos & Hdata).
      unfold Deserializer.memory_backed, advanced. cbn.
      rewrite Hd in *. repeat split; try assumption; lia. }
    eexists _, _. split; [reflexivity |].
    cbn [Deserializer.self Deserializer.target].
    rewrite (read_window (advanced d (Z.to_nat a)) data b Hm' Hd);
      [| lia | unfold advanced; cbn; lia].
    split; [reflexivity |].
    cbn [Deserializer.self Deserializer.target]. split.
    + unfold advanced at 1. cbn [Deserializer.mPos Deserializer.set_mPos].
      rewrite Z2Nat.id by lia.
      rewrite (Z2Nat.inj_add (Deserializer.mPos d) a)
        by (destruct Hm as (_ & _ & Hpos & _); lia).
      rewrite (Z2Nat.inj_add a b) by lia.
      rewrite <- drop_drop, <- take_take_drop. reflexivity.
    + rewrite advanced_advanced. f_equal. lia.
  - destruct Hm as (Hf & Hmax & Hpos & Hdata). rewrite Hd in Hdata.
    unfold Deserializer.read in Hr. rewrite Hd, Hf in Hr.
    destruct (a + b =? 0) eqn:E0; [| discriminate].
    apply Z.eqb_eq in E0.
    assert (a = 0) by lia. assert (b = 0) by lia. subst a b.
    injection Hr as <-. eexists _, _.
    split; [reflexivity |]. split; [reflexivity |]. split; reflexivity.
Qed.

(** X10. Once a memory-backed Deserializer has read up to its length,
    [atEnd()] is true and no further read of one byte or more returns
    bytes: it fails the assertion, except that over data, when the
    length plus the count asked for is more than [INT_MAX], the [int]
    addition in the assertion overflows, which is undefined. *)
Theorem read_to_the_end (d : Deserializer.Deserializer) (len more : Z) g :
  Deserializer.memory_backed d -> 0 <= len ->
  Deserializer.mPos d + len = Deserializer.mLength d ->
  Deserializer.read d len = Ok g ->
  0 < more <= INT_MAX ->
  Deserializer.atEnd (Deserializer.self g) = true /\
  Deserializer.read (Deserializer.self g) more
  = match Deserializer.mData d with
    | Some _ =>
        if Deserializer.mLength d + more <=? INT_MAX then AssertFail
        else Undefined
    | None => AssertFail
    end /\
  (forall g', Deserializer.read (Deserializer.self g) more <> Ok g').
Proof.
  intros Hm Hl Hend Hr Hmore.
  assert (Hself : Deserializer.self g
                  = Deserializer.set_mPos d (Deserializer.mLength d)).
  { destruct (Deserializer.mData d) as [data |] eqn:Hd.
    - rewrite (read_window d data len Hm Hd) in Hr by lia.
      injection Hr as <-. cbn [Deserializer.self]. unfold advanced.
      rewrite Z2Nat.id by lia. rewrite Hend. reflexivity.
    - destruct Hm as (Hf & Hmax & Hpos & Hdata). rewrite Hd in Hdata.
      assert (len = 0) by lia. subst len.
      cbn in Hr. injection Hr as <-. cbn [Deserializer.self].
      rewrite <- Hend, Z.add_0_r. destruct d; reflexivity. }
  rewrite Hself.
  assert (Hfail :
    Deserializer.read
      (Deserializer.set_mPos d (Deserializer.mLength d)) more
    = match Deserializer.mData d with
      | Some _ =>
          if Deserializer.mLength d + more <=? INT_MAX then AssertFail
          else Undefined
      | None => AssertFail
      end).
  { destruct Hm as (Hf & Hmax & Hpos & Hdata).
    unfold Deserializer.read. cbn [Deserializer.set_mPos
      Deserializer.mData Deserializer.mPos Deserializer.mLength
      Deserializer.mFile].
    destruct (more =? 0) eqn:E0; [apply Z.eqb_eq in E0; lia |].
    destruct (Deserializer.mData d) as [data |].
    - unfold int_add, in_int.
      assert (Elow : (INT_MIN <=? Deserializer.mLength d + more) = true)
        by (apply Z.leb_le; unfold INT_MIN; lia).
      rewrite Elow. cbn [andb].
      destruct (Deserializer.mLength d + more <=? INT_MAX);
        [| reflexivity].
      destruct (Deserializer.mLength d + more <=? Deserializer.mLength d)
        eqn:Ea; [apply Z.leb_le in Ea; lia | reflexivity].
    - rewrite Hf. reflexivity. }
  split; [| split].
  - unfold Deserializer.atEnd. cbn. apply Z.eqb_refl.
  - exact Hfail.
  - intros g'. rewrite Hfail.
    destruct (Deserializer.mData d);
      [destruct (Deserializer.mLength d + more <=? INT_MAX) |];
      discriminate.
Qed.

Lemma fseek_back f n :
  Stdio.fseek_cur (- n)
    {| Stdio.fdata := Stdio.fdata f; Stdio.fpos := Stdio.fpos f + n;
       Stdio.fcap := Stdio.fcap f |} = f.
Proof.
  unfold Stdio.fseek_cur. cbn. destruct f as [fd fp fc]. cbn.
  f_equal. lia.
Qed.

Lemma set_mFile_same d f :
  Deserializer.mFile d = Some f -> Deserializer.set_mFile d f = d.
Proof. destruct d. cbn. intros ->. reflexivity. Qed.

(** X11. On a file-backed Deserializer, [peek] of one byte or more gives
    the bytes the following [read] gives, as many as the stream still
    has up to [len], and leaves the object and the stream position as
    they were; [read] moves the stream on by the count it returns, and
    [pos()] is then the new stream position converted to [int], which
    is the [pos()] before plus the count as long as the new position is
    at most [INT_MAX].  At the end of the stream both return a count of
    zero: unlike the memory variant, nothing is asserted about the
    length. *)
Theorem file_peek_read (d : Deserializer.Deserializer) f (len : Z) :
  file_backed d f -> 0 < len <= INT_MAX ->
  exists f',
    Deserializer.peek d len
    = Ok {| Deserializer.target := take (Z.to_nat len) (ahead f);
            Deserializer.count
              := Z.min len (Z.of_nat (length (ahead f)));
            Deserializer.self := d |} /\
    Deserializer.read d len
    = Ok {| Deserializer.target := take (Z.to_nat len) (ahead f);
            Deserializer.count
              := Z.min len (Z.of_nat (length (ahead f)));
            Deserializer.self := Deserializer.set_mFile d f' |} /\
    ahead f' = drop (Z.to_nat len) (ahead f) /\
    Stdio.ftell f'
    = Stdio.ftell f + Z.min len (Z.of_nat (length (ahead f))) /\
    Deserializer.pos (Deserializer.set_mFile d f')
    = narrow_int
        (Stdio.ftell f + Z.min len (Z.of_nat (length (ahead f)))) /\
    (Stdio.ftell f + Z.min len (Z.of_nat (length (ahead f))) <= INT_MAX ->
     Deserializer.pos (Deserializer.set_mFile d f')
     = Deserializer.pos d + Z.min len (Z.of_nat (length (ahead f)))).
Proof.
  intros (Hd & Hf & Hpos) Hlen. unfold ahead.
  set (got := take (Z.to_nat len) (drop (Z.to_nat (Stdio.fpos f))
                                        (Stdio.fdata f))).
  assert (Hgot : Z.of_nat (length got)
                 = Z.min len (Z.of_nat (length (drop (Z.to_nat (Stdio.fpos f))
                                                     (Stdio.fdata f))))).
  { unfold got. rewrite length_take. lia. }
  exists {| Stdio.fdata := Stdio.fdata f;
            Stdio.fpos := Stdio.fpos f + Z.of_nat (length got);
            Stdio.fcap := Stdio.fcap f |}.
  unfold Deserializer.peek, Deserializer.read.
  destruct (len =? 0) eqn:E0; [apply Z.eqb_eq in E0; lia |].
  rewrite Hd, Hf. unfold Stdio.fread. fold got.
  split; [| split; [| split; [| split; [| split]]]].
  - rewrite Hgot, fseek_back, (set_mFile_same d f Hf). reflexivity.
  - rewrite Hgot. reflexivity.
  - cbn [Stdio.fdata Stdio.fpos].
    rewrite Z2Nat.inj_add, Nat2Z.id by lia.
    rewrite <- drop_drop. unfold got.
    rewrite length_take, length_drop.
    destruct (Nat.le_ge_cases (Z.to_nat len)
                (length (Stdio.fdata f) - Z.to_nat (Stdio.fpos f)))
      as [Hle | Hge].
    + rewrite Nat.min_l by exact Hle. reflexivity.
    + rewrite Nat.min_r by exact Hge.
      rewrite !drop_ge by (rewrite length_drop; lia). reflexivity.
  - unfold Stdio.ftell. cbn [Stdio.fpos]. rewrite Hgot. reflexivity.
  - unfold Deserializer.pos, Deserializer.set_mFile.
    cbn [Deserializer.mFile]. unfold Stdio.ftell. cbn [Stdio.fpos].
    rewrite Hgot. reflexivity.
  - intros Hb. unfold Deserializer.pos, Deserializer.set_mFile.
    cbn [Deserializer.mFile]. rewrite Hf.
    unfold Stdio.ftell in *. cbn [Stdio.fpos]. rewrite Hgot.
    rewrite !narrow_int_small by lia. reflexivity.
Qed.

End OperatorTheorems.

Section OperatorWitnesses.
Import Serializer Operators.

Ltac memory_holds :=
  split;
  [ unfold Deserializer.memory_backed, memory, INT_MAX; cbn;
    repeat split; try reflexivity; lia
  | eexists; split; [reflexivity | rewrite ?app_nil_r; reflexivity] ].

Lemma uint32_round_trip_witness :
  shr 0 (memory (le_bytes 4 258 ++ [x09]%byte))
  = Ok (258, advanced (memory (le_bytes 4 258 ++ [x09]%byte)) 4).
Proof.
  apply (uint32_round_trip 258 0 [] _ [x09]%byte); [lia | memory_holds].
Defined.

Example uint32_bytes : le_bytes 4 258 = [x02; x01; x00; x00]%byte.
Proof. reflexivity. Qed.

Lemma String_round_trip_witness :
  put_String [x61; x62]%byte (to_string [x2a]%byte)
  = Ok (to_string [x2a; x02; x00; x00; x00; x61; x62]%byte) /\
  get_String [x7a; x7a; x7a]%byte
    (memory [x02; x00; x00; x00; x61; x62; x2a]%byte)
  = Ok ([x61; x62]%byte,
        advanced (memory [x02; x00; x00; x00; x61; x62; x2a]%byte) 6).
Proof.
  destruct (String_round_trip [x61; x62]%byte [x7a; x7a; x7a]%byte
              [x2a]%byte
              (memory [x02; x00; x00; x00; x61; x62; x2a]%byte)
              [x2a]%byte) as (Hput & _ & _ & Hget).
  - unfold INT_MAX. cbn. lia.
  - split; [exact Hput |]. apply Hget. memory_holds.
Defined.

(** A list of strings goes element by element, a list of [uint32_t] as
    one block. *)
Lemma List_round_trip_witness :
  get_List [[x7a]%byte]
    (memory (enc_List enc [[x61; x62]%byte; []]))
  = Ok ([[x61; x62]%byte; []],
        advanced (memory (enc_List enc [[x61; x62]%byte; []]))
          (length (enc_List enc [[x61; x62]%byte; []]))) /\
  get_List [7; 8; 9]
    (memory (enc_List enc [258; 3]))
  = Ok ([258; 3],
        advanced (memory (enc_List enc [258; 3]))
          (length (enc_List enc [258; 3]))).
Proof.
  split.
  - apply (List_round_trip [[x61; x62]%byte; []] [[x7a]%byte] [] _ []).
    + cbn. lia.
    + repeat constructor; cbn; unfold INT_MAX; lia.
    + intros Hne. exfalso. apply Hne. reflexivity.
    + memory_holds.
  - apply (List_round_trip [258; 3] [7; 8; 9] [] _ []).
    + cbn. lia.
    + repeat constructor; cbn; lia.
    + intros _. unfold INT_MAX. cbn. lia.
    + memory_holds.
Defined.

Example List_of_uint32_bytes :
  enc_List enc [258; 3]
  = [x02; x00; x00; x00; x02; x01; x00; x00; x03; x00; x00; x00]%byte.
Proof. reflexivity. Qed.

Lemma pair_round_trip_witness :
  shr ([], 0) (memory (enc ([x61]%byte, 7)))
  = Ok (([x61]%byte, 7),
        advanced (memory (enc ([x61]%byte, 7)))
          (length (enc ([x61]%byte, 7)))).
Proof.
  apply (pair_round_trip ([x61]%byte, 7) ([], 0) [] _ []).
  - cbn. unfold INT_MAX. lia.
  - cbn. lia.
  - memory_holds.
Defined.

(** A size of five with two characters behind it; and a size of 2^32 - 1. *)
Lemma get_String_truncated_witness :
  get_String [] (memory (le_bytes 4 5 ++ [x61; x62]%byte)) = AssertFail /\
  get_String [] (memory (le_bytes 4 (2 ^ 32 - 1) ++ [x61; x62]%byte))
  = Undefined.
Proof.
  split.
  - rewrite (get_String_truncated 5 [] _ [x61; x62]%byte);
      [reflexivity | cbn; lia | memory_holds].
  - rewrite (get_String_truncated (2 ^ 32 - 1) [] _ [x61; x62]%byte);
      [reflexivity | cbn; lia | memory_holds].
Defined.

Lemma write_String_empty_witness :
  write_String short_file [] = AssertFail /\
  put_String [] short_file <> AssertFail.
Proof.
  destruct (write_String_empty short_file []) as (Hw & _ & Hp).
  - unfold INT_MAX. cbn. lia.
  - split; [apply Hw; reflexivity | exact Hp].
Defined.


Lemma put_Path_as_String_witness :
  put_Path [x2f; x61]%byte (to_string [])
  = put_String [x2f; x61]%byte (to_string []).
Proof.
  apply (put_Path_as_String (to_string []) [x2f; x61]%byte).
  unfold INT_MAX. cbn. lia.
Defined.

Lemma read_then_read_witness :
  exists ga gb,
    Deserializer.read (memory [x01; x02; x03; x04]%byte) 1 = Ok ga /\
    Deserializer.read (Deserializer.self ga) 2 = Ok gb /\
    [x01; x02; x03]%byte
    = Deserializer.target ga ++ Deserializer.target gb.
Proof.
  destruct (read_then_read (memory [x01; x02; x03; x04]%byte) 1 2
              {| Deserializer.target := [x01; x02; x03]%byte;
                 Deserializer.count := 3;
                 Deserializer.self :=
                   advanced (memory [x01; x02; x03; x04]%byte) 3 |})
    as (ga & gb & Ha & Hb & Ht & _).
  - unfold Deserializer.memory_backed, memory, INT_MAX. cbn.
    repeat split; try reflexivity; lia.
  - lia.
  - lia.
  - reflexivity.
  - exists ga, gb. auto.
Defined.

(** After the four bytes, a read of one byte fails the assertion and a
    read of [INT_MAX] bytes overflows. *)
Lemma read_to_the_end_witness :
  Deserializer.read
    (advanced (memory [x01; x02; x03; x04]%byte) 4) 1 = AssertFail /\
  Deserializer.read
    (advanced (memory [x01; x02; x03; x04]%byte) 4) INT_MAX = Undefined.
Proof.
  split.
  - destruct (read_to_the_end (memory [x01; x02; x03; x04]%byte) 4 1
                {| Deserializer.target := [x01; x02; x03; x04]%byte;
                   Deserializer.count := 4;
                   Deserializer.self :=
                     advanced (memory [x01; x02; x03; x04]%byte) 4 |})
      as (_ & Hr & _).
    + unfold Deserializer.memory_backed, memory, INT_MAX. cbn.
      repeat split; try reflexivity; lia.
    + lia.
    + reflexivity.
    + reflexivity.
    + unfold INT_MAX. lia.
    + exact Hr.
  - destruct (read_to_the_end (memory [x01; x02; x03; x04]%byte) 4 INT_MAX
                {| Deserializer.target := [x01; x02; x03; x04]%byte;
                   Deserializer.count := 4;
                   Deserializer.self :=
                     advanced (memory [x01; x02; x03; x04]%byte) 4 |})
      as (_ & Hr & _).
    + unfold Deserializer.memory_backed, memory, INT_MAX. cbn.
      repeat split; try reflexivity; lia.
    + lia.
    + reflexivity.
    + reflexivity.
    + unfold INT_MAX. lia.
    + exact Hr.
Defined.

(** Three bytes are left in the stream and five are asked for. *)
Lemma file_peek_read_witness :
  Deserializer.peek a_file_reader 5
  = Ok {| Deserializer.target := [x02; x03; x04]%byte;
          Deserializer.count := 3;
          Deserializer.self := a_file_reader |}.
Proof.
  destruct (file_peek_read a_file_reader
              {| Stdio.fdata := [x01; x02; x03; x04]%byte; Stdio.fpos := 1;
                 Stdio.fcap := 4 |} 5) as (f' & Hp & _).
  - unfold file_backed. cbn. repeat split; try reflexivity; lia.
  - unfold INT_MAX. lia.
  - exact Hp.
Defined.

End OperatorWitnesses.

(** * More properties of SharedMemory *)

Section SharedMemoryMore.
Import SharedMemory More.
Context {W : Type} (os : World W).

(** What [init] leaves, in any mode. *)
Lemma init_value_shape (w : W) self key size mode :
  (key = -1 /\ value (run os (init self key size mode) w) = (false, self))
  \/
  (key <> -1 /\
   value (run os (init self key size mode) w) = (false, set_mShm self (-1)))
  \/
  (key <> -1 /\ exists shm, shm <> -1 /\
     value (run os (init self key size mode) w)
     = (true, {| mShm := shm; mOwner := negb (is_None mode);
                 mAddr := mAddr self; mKey := key; mSize := size |})).
Proof.
  unfold init. destruct (key =? -1) eqn:Ek.
  - apply Z.eqb_eq in Ek. left. auto.
  - apply Z.eqb_neq in Ek. right.
    rewrite run_bind, run_call. cbn [value world trace].
    rewrite run_bind. cbn [value world trace].
    set (r1 := respond os w
                 (shmget key size (if is_None mode then 0 else creat_excl))).
    set (r2 := run os (if (fst r1 =? -1) && is_Recreate mode
                       then init_recreate key size else Ret (fst r1))
                   (snd r1)).
    destruct (value r2 =? -1) eqn:E2.
    + apply Z.eqb_eq in E2. left. rewrite E2. auto.
    + apply Z.eqb_neq in E2. rewrite run_bind. cbn [value world trace].
      set (r3 := run os (if negb (is_None mode)
                         then init_set_perms (value r2) else Ret true)
                     (world r2)).
      destruct (value r3); cbn [negb run value].
      * right. split; [exact Ek |]. exists (value r2). auto.
      * left. auto.
Qed.

(** X12. [init] keeps the object and its result in step: on an object
    as the constructors make it, [init] returns true exactly when the
    object holds a handle afterwards, in every mode; a failed [init]
    leaves it as constructed; a successful one records the key and the
    size, and ownership in every mode but the attach-only one. *)
Theorem init_result_and_handle (w : W) key size mode :
  (fst (value (run os (init fresh key size mode) w)) = true <->
   mShm (snd (value (run os (init fresh key size mode) w))) <> -1) /\
  (fst (value (run os (init fresh key size mode) w)) = false ->
   snd (value (run os (init fresh key size mode) w)) = fresh) /\
  (fst (value (run os (init fresh key size mode) w)) = true ->
   mKey (snd (value (run os (init fresh key size mode) w))) = key /\
   mSize (snd (value (run os (init fresh key size mode) w))) = size /\
   mOwner (snd (value (run os (init fresh key size mode) w)))
   = negb (is_None mode)).
Proof.
  destruct (init_value_shape w fresh key size mode)
    as [(_ & ->) | [(_ & ->) | (_ & shm & Hs & ->)]]; cbn.
  - repeat split; try discriminate; auto; intros H; contradiction.
  - repeat split; try discriminate; auto; intros H; contradiction.
  - repeat split; auto; discriminate.
Qed.

(** X13. In the attach-only mode [init] makes one call, the lookup
    [shmget(key, size, 0)]: it creates nothing, sets no permissions,
    removes nothing, returns true exactly when the lookup gave a handle,
    and the object does not own the segment. *)
Theorem init_attach_only (w : W) self key size :
  key <> -1 ->
  exists shm,
    trace (run os (init self key size ModeNone) w)
    = [ (shmget key size 0, shm) ] /\
    value (run os (init self key size ModeNone) w)
    = if shm =? -1 then (false, set_mShm self (-1))
      else (true, {| mShm := shm; mOwner := false; mAddr := mAddr self;
                     mKey := key; mSize := size |}).
Proof.
  intros Hk. unfold init.
  destruct (key =? -1) eqn:Ek; [apply Z.eqb_eq in Ek; contradiction |].
  cbn [is_None is_Recreate negb andb bind run].
  destruct (respond os w (shmget key size 0)) as [shm w1].
  exists shm. rewrite andb_false_r. cbn [bind run].
  destruct (shm =? -1) eqn:Es; cbn [bind run negb value trace].
  - apply Z.eqb_eq in Es. subst shm. auto.
  - auto.
Qed.

(** X14. In the exclusive-create mode [init] never looks for nor removes
    a segment that was there before: it first asks for exclusive
    creation, and when that fails it returns false having made no other
    call.  The only segment it can remove is the one it has just
    created, when setting its permissions fails. *)
Theorem init_create_only (w : W) self key size :
  key <> -1 ->
  exists shm,
    init_ending self key size shm [ (shmget key size creat_excl, shm) ]
      (run os (init self key size Create) w).
Proof.
  intros Hk. unfold init.
  destruct (key =? -1) eqn:Ek; [apply Z.eqb_eq in Ek; contradiction |].
  cbn [is_None is_Recreate negb].
  rewrite run_bind, run_call. cbn [value world trace].
  destruct (respond os w (shmget key size creat_excl)) as [shm w1].
  cbn [fst snd]. exists shm. rewrite andb_false_r.
  rewrite run_bind. cbn [run value world trace app].
  unfold init_ending.
  destruct (shm =? -1) eqn:Es.
  - apply Z.eqb_eq in Es. subst shm. left. cbn. auto.
  - apply Z.eqb_neq in Es. right.
    rewrite run_bind. cbn [value world trace].
    destruct (run_init_set_perms os shm w1)
      as (uid & [(ret & Hr & Hval & Htr) | (r' & Hval & Htr)]);
      rewrite Hval, Htr; cbn [negb run value trace].
    + left. split; [exact Es |]. exists uid, ret.
      rewrite app_nil_r. auto.
    + right. split; [exact Es |]. exists uid, r'.
      rewrite app_nil_r. auto.
Qed.

(** X15. [cleanup], which the destructor runs, detaches when a mapping
    is held and then removes the segment exactly when the object holds a
    handle and owns it; an object without a handle or without ownership
    never calls [shmctl]. *)
Theorem cleanup_calls (w : W) self :
  exists detached removed,
    trace (run os (cleanup self) w) = detached ++ removed /\
    value (run os (cleanup self) w) = set_mAddr self 0 /\
    (mAddr self = 0 -> detached = []) /\
    (mAddr self <> 0 -> exists r, detached = [ (shmdt (mAddr self), r) ]) /\
    (mShm self <> -1 -> mOwner self = true ->
     exists r, removed = [ (shmctl (mShm self) IPC_RMID None, r) ]) /\
    (mShm self = -1 \/ mOwner self = false -> removed = []).
Proof.
  unfold cleanup. rewrite run_bind.
  assert (Hd : exists detached,
             trace (run os (detach self) w) = detached /\
             value (run os (detach self) w) = set_mAddr self 0 /\
             (mAddr self = 0 -> detached = []) /\
             (mAddr self <> 0 ->
              exists r, detached = [ (shmdt (mAddr self), r) ])).
  { unfold detach. destruct (mAddr self =? 0) eqn:E0.
    - apply Z.eqb_eq in E0. exists []. cbn.
      rewrite <- E0, set_mAddr_same. repeat split; auto.
      intros H. contradiction.
    - apply Z.eqb_neq in E0. cbn [bind run].
      destruct (respond os w (shmdt (mAddr self))) as [r w1].
      eexists. cbn. repeat split; eauto. intros H. contradiction. }
  destruct Hd as (detached & Htr & Hval & H0 & H1).
  rewrite Htr, Hval. cbn [value world trace mShm mOwner set_mAddr].
  destruct (mShm self =? -1) eqn:Es; cbn [negb andb].
  - apply Z.eqb_eq in Es. exists detached, []. cbn.
    rewrite app_nil_r. repeat split; auto. intros H. contradiction.
  - apply Z.eqb_neq in Es. destruct (mOwner self) eqn:Eo.
    + cbn [bind run].
      destruct (respond os _ (shmctl (mShm self) IPC_RMID None))
        as [r w2].
      exists detached, [ (shmctl (mShm self) IPC_RMID None, r) ].
      cbn. repeat split; eauto.
      intros [H | H]; [contradiction | discriminate].
    + exists detached, []. cbn. rewrite app_nil_r.
      repeat split; auto. discriminate.
Qed.

(** X16. [attach] followed by [detach] always leaves an unattached
    object as it was: when [shmat] gives an address (other than null)
    the calls are that [shmat] and one [shmdt] of the address it gave;
    when it fails, the [shmat], the error log and no [shmdt]. *)
Theorem attach_then_detach (w : W) self flag address :
  mAddr self = 0 ->
  value (run os (attach_detach self flag address) w) = self /\
  exists flg a,
    (a <> SHMAT_FAILED /\ a <> 0 /\ exists r,
       trace (run os (attach_detach self flag address) w)
       = [ (shmat (mShm self) address flg, a); (shmdt a, r) ])
    \/
    (a = SHMAT_FAILED /\ exists r,
       trace (run os (attach_detach self flag address) w)
       = [ (shmat (mShm self) address flg, a); (log_error, r) ])
    \/
    (a = 0 /\
       trace (run os (attach_detach self flag address) w)
       = [ (shmat (mShm self) address flg, a) ]).
Proof.
  intros H0. unfold attach_detach. rewrite run_bind.
  cbn [value world trace].
  destruct (attach_calls_shmat os w self flag address H0)
    as (flg & a & rest & Ht & [(Ha & (r & Hrest) & Hv) | (Ha & Hrest & Hv)]);
    rewrite Ht, Hv; cbn [snd]; subst rest.
  - unfold detach. rewrite H0. cbn. split; [reflexivity |].
    exists flg, a. right. left. eauto.
  - unfold detach. cbn [mAddr set_mAddr].
    destruct (a =? 0) eqn:Ea.
    + apply Z.eqb_eq in Ea. subst a. cbn.
      split; [rewrite <- H0; apply set_mAddr_same |].
      exists flg, 0. right. right. auto.
    + apply Z.eqb_neq in Ea. cbn [bind run].
      destruct (respond os _ (shmdt a)) as [r w2]. cbn.
      split; [rewrite <- H0; destruct self; reflexivity |].
      exists flg, a. left. eauto.
Qed.

(** X17. The flags [attach] hands to [shmat]: [SHM_RDONLY] is set
    exactly when the flag argument lacks the [Write] bit, and [SHM_RND]
    exactly when an address is given; no other bit is ever set. *)
Theorem attach_flags (w : W) self flag address :
  mAddr self = 0 ->
  exists flg a rest,
    trace (run os (attach self flag address) w)
    = (shmat (mShm self) address flg, a) :: rest /\
    (Z.land flg SHM_RDONLY <> 0 <-> Z.land flag Write = 0) /\
    (Z.land flg SHM_RND <> 0 <-> address <> 0) /\
    Z.land flg (Z.lnot (Z.lor SHM_RDONLY SHM_RND)) = 0.
Proof.
  intros H0. unfold attach. rewrite H0. cbn [Z.eqb negb bind run].
  match goal with
  | |- context [respond os w (shmat ?i ?a ?f)] =>
      destruct (respond os w (shmat i a f)) as [a' w1]; exists f, a'
  end.
  eexists. split.
  - cbn [trace]. reflexivity.
  - destruct (address =? 0) eqn:Ea; destruct (Z.land flag Write =? 0) eqn:Ew;
      cbn [negb];
      [apply Z.eqb_eq in Ea | apply Z.eqb_eq in Ea
       | apply Z.eqb_neq in Ea | apply Z.eqb_neq in Ea];
      [apply Z.eqb_eq in Ew | apply Z.eqb_neq in Ew
       | apply Z.eqb_eq in Ew | apply Z.eqb_neq in Ew];
      repeat split; intros; try (vm_compute; congruence);
      try assumption; try contradiction;
      try (exfalso; vm_compute in *; congruence).
Qed.

(** X18. An object that is constructed and destroyed removes the
    segment exactly when it came to hold a handle in a mode other than
    the attach-only one: the destructor then makes the one call
    [shmctl(handle, IPC_RMID)], and otherwise no call at all. *)
Theorem life_removes_what_it_owns (w : W) key size mode :
  exists removed,
    trace (run os (life key size mode) w)
    = trace (run os (construct key size mode) w) ++ removed /\
    (mShm (value (run os (construct key size mode) w)) <> -1 ->
     mode <> ModeNone ->
     exists r,
       removed
       = [ (shmctl (mShm (value (run os (construct key size mode) w)))
                   IPC_RMID None, r) ]) /\
    (mShm (value (run os (construct key size mode) w)) = -1 \/
     mode = ModeNone -> removed = []).
Proof.
  unfold life. rewrite run_bind. cbn [trace].
  set (c := run os (construct key size mode) w).
  assert (Hc : value c = fresh \/
               exists shm, shm <> -1 /\
                 value c = {| mShm := shm; mOwner := negb (is_None mode);
                              mAddr := 0; mKey := key; mSize := size |}).
  { subst c. unfold construct. rewrite run_bind. cbn [value run].
    destruct (init_value_shape w fresh key size mode)
      as [(_ & ->) | [(_ & ->) | (_ & shm & Hs & ->)]]; cbn [snd].
    - left. reflexivity.
    - left. reflexivity.
    - right. exists shm. auto. }
  destruct Hc as [Hc | (shm & Hs & Hc)]; rewrite Hc.
  - exists []. cbn. split; [reflexivity |]. split; [| reflexivity].
    intros H. contradiction.
  - unfold cleanup, detach. cbn [mAddr Z.eqb bind]. cbn [mShm mOwner].
    destruct (shm =? -1) eqn:Es; [apply Z.eqb_eq in Es; contradiction |].
    destruct mode; cbn [is_None negb andb run bind].
    + exists []. cbn. split; [reflexivity |]. split; [| reflexivity].
      intros _ H. contradiction.
    + destruct (respond os (world c) (shmctl shm IPC_RMID None)) as [r w2].
      eexists. cbn. split; [reflexivity |]. split; [eauto |].
      intros [H | H]; [contradiction | discriminate].
    + destruct (respond os (world c) (shmctl shm IPC_RMID None)) as [r w2].
      eexists. cbn. split; [reflexivity |]. split; [eauto |].
      intros [H | H]; [contradiction | discriminate].
Qed.

End SharedMemoryMore.

Section SharedMemoryMoreWitnesses.
Import SharedMemory SysV More.

Lemma init_result_and_handle_witness :
  snd (value (run kernel (init fresh 7 64 ModeNone) one_segment)) = fresh /\
  mOwner (snd (value (run kernel (init fresh 42 64 Create) no_segments)))
  = true.
Proof.
  split.
  - apply (init_result_and_handle kernel one_segment 7 64 ModeNone).
    reflexivity.
  - apply (init_result_and_handle kernel no_segments 42 64 Create).
    reflexivity.
Defined.

Lemma init_attach_only_witness :
  exists shm,
    trace (run kernel (init fresh 42 64 ModeNone) one_segment)
    = [ (shmget 42 64 0, shm) ].
Proof.
  destruct (init_attach_only kernel one_segment fresh 42 64) as (shm & H & _);
    [lia |].
  exists shm. exact H.
Defined.

Lemma init_create_only_witness :
  exists shm,
    init_ending fresh 42 64 shm [ (shmget 42 64 creat_excl, shm) ]
      (run kernel (init fresh 42 64 Create) one_segment).
Proof. apply (init_create_only kernel one_segment fresh 42 64). lia. Defined.

Example create_over_existing :
  run kernel (init fresh 42 64 Create) one_segment
  = {| value := (false, fresh); world := one_segment;
       trace := [ (shmget 42 64 creat_excl, -1) ] |}.
Proof. vm_compute. reflexivity. Qed.

Lemma cleanup_calls_witness :
  exists detached removed,
    trace (run kernel (cleanup fresh) one_segment) = detached ++ removed /\
    removed = [].
Proof.
  destruct (cleanup_calls kernel one_segment fresh)
    as (detached & removed & Ht & _ & _ & _ & _ & Hn).
  exists detached, removed. split; [exact Ht |]. apply Hn. left. reflexivity.
Defined.

Lemma attach_then_detach_witness :
  value (run kernel (attach_detach (set_mShm fresh 0) Write 0) one_segment)
  = set_mShm fresh 0.
Proof.
  apply (attach_then_detach kernel one_segment (set_mShm fresh 0) Write 0).
  reflexivity.
Defined.

Lemma attach_flags_witness :
  exists flg a rest,
    trace (run kernel (attach (set_mShm fresh 0) Read 0) one_segment)
    = (shmat 0 0 flg, a) :: rest /\
    (Z.land flg SHM_RDONLY <> 0 <-> Z.land Read Write = 0).
Proof.
  destruct (attach_flags kernel one_segment (set_mShm fresh 0) Read 0)
    as (flg & a & rest & Ht & Hro & _); [reflexivity |].
  exists flg, a, rest. auto.
Defined.

Lemma life_removes_what_it_owns_witness :
  exists removed,
    trace (run kernel (life 42 64 ModeNone) one_segment)
    = trace (run kernel (construct 42 64 ModeNone) one_segment) ++ removed
    /\ removed = [].
Proof.
  destruct (life_removes_what_it_owns kernel one_segment 42 64 ModeNone)
    as (removed & Ht & _ & Hn).
  exists removed. split; [exact Ht |]. apply Hn. right. reflexivity.
Defined.

Example life_of_a_creator :
  trace (run kernel (life 42 64 Create) no_segments)
  = [ (shmget 42 64 creat_excl, 0) ] ++ set_perms 0 1000 0
    ++ [ (shmctl 0 IPC_RMID None, 0) ].
Proof. vm_compute. reflexivity. Qed.

End SharedMemoryMoreWitnesses.

(** * More properties of the EventLoop *)

Section EventLoopMore.
Import EventLoop More.

Lemma generateIds_cons n l :
  generateIds (S n) l
  = (fst (generateId l) :: fst (generateIds n (snd (generateId l))),
     snd (generateIds n (snd (generateId l)))).
Proof.
  cbn [generateIds]. destruct (generateId l) as [id l1]. cbn [fst snd].
  destruct (generateIds n l1). reflexivity.
Qed.

Lemma generateId_ok l : nextId_ok (snd (generateId l)).
Proof.
  unfold nextId_ok, generateId. cbn. apply Z.mod_pos_bound. lia.
Qed.

Lemma generateIds_nextId n : forall l,
  nextId_ok l ->
  nextId (snd (generateIds n l)) = (nextId l + Z.of_nat n) mod 2 ^ 32.
Proof.
  induction n as [| n IH]; intros l Hok.
  - cbn. rewrite Z.add_0_r, Z.mod_small by exact Hok. reflexivity.
  - rewrite generateIds_cons. cbn [snd].
    rewrite IH by apply generateId_ok.
    unfold generateId. cbn [snd set_nextId nextId].
    rewrite Zplus_mod_idemp_l. f_equal. lia.
Qed.

Lemma generateIds_lookup n : forall l (i : nat) id,
  nextId_ok l ->
  fst (generateIds n l) !! i = Some id ->
  (i < n)%nat /\ id = uint32_to_int ((nextId l + Z.of_nat i) mod 2 ^ 32).
Proof.
  induction n as [| n IH]; intros l i id Hok Hi; [discriminate |].
  rewrite generateIds_cons in Hi. cbn [fst] in Hi.
  destruct i as [| i].
  - cbn in Hi. injection Hi as <-. split; [lia |].
    rewrite Z.add_0_r, Z.mod_small by exact Hok. reflexivity.
  - cbn [lookup list_lookup] in Hi.
    apply IH in Hi as (Hlt & ->); [| apply generateId_ok].
    split; [lia |].
    unfold generateId. cbn [snd set_nextId nextId].
    rewrite Zplus_mod_idemp_l. do 2 f_equal. lia.
Qed.

Lemma uint32_to_int_inj a b :
  0 <= a < 2 ^ 32 -> 0 <= b < 2 ^ 32 ->
  uint32_to_int a = uint32_to_int b -> a = b.
Proof.
  unfold uint32_to_int. intros Ha Hb.
  destruct (a <? 2 ^ 31) eqn:Ea; destruct (b <? 2 ^ 31) eqn:Eb;
    [apply Z.ltb_lt in Ea | apply Z.ltb_lt in Ea
     | apply Z.ltb_ge in Ea | apply Z.ltb_ge in Ea];
    [apply Z.ltb_lt in Eb | apply Z.ltb_ge in Eb
     | apply Z.ltb_lt in Eb | apply Z.ltb_ge in Eb]; lia.
Qed.

Lemma mod_eq_close k i j :
  0 <= i -> 0 <= j -> Z.abs (i - j) < 2 ^ 32 ->
  (k + i) mod 2 ^ 32 = (k + j) mod 2 ^ 32 -> i = j.
Proof.
  intros Hi Hj Habs Heq.
  pose proof (Z.div_mod (k + i) (2 ^ 32) ltac:(lia)) as Di.
  pose proof (Z.div_mod (k + j) (2 ^ 32) ltac:(lia)) as Dj.
  rewrite Heq in Di.
  assert (Hq : i - j = 2 ^ 32 * ((k + i) / 2 ^ 32 - (k + j) / 2 ^ 32))
    by lia.
  assert ((k + i) / 2 ^ 32 - (k + j) / 2 ^ 32 = 0) by nia.
  lia.
Qed.

(** X19. The identifiers of any 2^32 calls of [generateId] in a row are
    pairwise different, and the call after them returns the first of
    them again. *)
Theorem generateId_period (n : nat) (l : EventLoop) :
  nextId_ok l -> Z.of_nat n <= 2 ^ 32 ->
  NoDup (fst (generateIds n l)) /\
  (Z.of_nat n = 2 ^ 32 ->
   fst (generateId (snd (generateIds n l))) = fst (generateId l)).
Proof.
  intros Hok Hn. split.
  - apply NoDup_alt. intros i j id Hi Hj.
    apply generateIds_lookup in Hi as (Hin & Hi); [| exact Hok].
    apply generateIds_lookup in Hj as (Hjn & Hj); [| exact Hok].
    rewrite Hi in Hj. apply uint32_to_int_inj in Hj;
      [| apply Z.mod_pos_bound; lia | apply Z.mod_pos_bound; lia].
    apply mod_eq_close in Hj; lia.
  - intros Hfull. unfold generateId. cbn [fst].
    rewrite generateIds_nextId by exact Hok. rewrite Hfull.
    rewrite <- (Z.mul_1_l (2 ^ 32)) at 1. rewrite Z.mod_add by lia.
    rewrite Z.mod_small by exact Hok. reflexivity.
Qed.

(** X20. The identifiers of [generateId] and the keys [fdToId] gives to
    descriptors ([fd >= 0]) stay apart while the counter is between 1
    and 2^31 - 1.  With the counter at 0 the identifier is the key of
    descriptor 0, and with the counter above 2^31 it is negative and is
    the key of the descriptor [2^32 - nextId]. *)
Theorem generateId_and_fdToId (l : EventLoop) :
  nextId_ok l ->
  (0 < nextId l < 2 ^ 31 ->
   forall fd, 0 <= fd -> fst (generateId l) <> fdToId fd) /\
  (nextId l = 0 -> fst (generateId l) = fdToId 0) /\
  (2 ^ 31 < nextId l ->
   0 < 2 ^ 32 - nextId l <= INT_MAX /\
   fst (generateId l) = fdToId (2 ^ 32 - nextId l)).
Proof.
  intros Hok. unfold nextId_ok in Hok.
  unfold generateId, fdToId, uint32_to_int, INT_MAX. cbn [fst].
  split; [| split].
  - intros Hr fd Hfd.
    destruct (nextId l <? 2 ^ 31) eqn:E; [lia | apply Z.ltb_ge in E; lia].
  - intros ->. reflexivity.
  - intros Hr.
    destruct (nextId l <? 2 ^ 31) eqn:E; [apply Z.ltb_lt in E; lia | lia].
Qed.

(** X21. At most one thread is the main thread: if [isMainThread()]
    returns true on two threads in the same state of the process, they
    are the same thread. *)
Theorem isMainThread_unique (t1 t2 : ThreadId) (st st1 st2 : Process) :
  isMainThread t1 st = Ok (true, st1) ->
  isMainThread t2 st = Ok (true, st2) ->
  t1 = t2.
Proof.
  unfold isMainThread.
  destruct (mainEventLoop st) as [[p |] st'].
  - destruct (mainEventLoop st') as [[p2 |] st''].
    + destruct (loops st'' !! p2) as [c |]; [| discriminate].
      intros [= H1 _] [= H2 _].
      apply Nat.eqb_eq in H1. apply Nat.eqb_eq in H2. congruence.
    + discriminate.
  - discriminate.
Qed.

End EventLoopMore.

Section EventLoopMoreWitnesses.
Import EventLoop More.

Lemma generateId_period_witness :
  NoDup (fst (generateIds 3 (loop_at (2 ^ 31 - 2)))).
Proof.
  apply (generateId_period 3 (loop_at (2 ^ 31 - 2))).
  - unfold nextId_ok. cbn. lia.
  - cbn. lia.
Defined.

Example generateIds_across_wrap :
  fst (generateIds 3 (loop_at (2 ^ 31 - 2)))
  = [2147483646; 2147483647; -2147483648].
Proof. vm_compute. reflexivity. Qed.

Lemma generateId_and_fdToId_witness :
  fst (generateId (loop_at (2 ^ 32 - 4))) = fdToId 4 /\
  (forall fd, 0 <= fd -> fst (generateId (loop_at 1)) <> fdToId fd).
Proof.
  destruct (generateId_and_fdToId (loop_at (2 ^ 32 - 4)))
    as (_ & _ & Hhigh); [unfold nextId_ok; cbn; lia |].
  destruct (generateId_and_fdToId (loop_at 1))
    as (Hlow & _); [unfold nextId_ok; cbn; lia |].
  split.
  - destruct Hhigh as (_ & H); [cbn; lia |]. exact H.
  - apply Hlow. cbn. lia.
Defined.

Lemma isMainThread_unique_witness : 1%nat = 1%nat.
Proof.
  apply (isMainThread_unique 1%nat 1%nat two_loops two_loops two_loops);
    vm_compute; reflexivity.
Defined.

End EventLoopMoreWitnesses.

(** * The string sink *)

Section StringSink.
Import Serializer Operators More.

Lemma write_to_string_take out data len :
  0 < len ->
  write (to_string out) data len
  = Ok {| ret := true; calls := [ mkBufCall data len ];
          after := to_string (out ++ take (Z.to_nat len) data) |}.
Proof.
  intros Hl. unfold write, to_string, make.
  destruct (len <=? 0) eqn:E; [apply Z.leb_le in E; lia |].
  reflexivity.
Qed.

(** X22. A Serializer over a string never enters the error state: every
    [write] of a positive length returns true and appends exactly the
    bytes it names; [pos()] is then the length of the string converted
    to [int], which is the [pos()] before plus the lengths written as
    long as the string is at most [INT_MAX] bytes long. *)
Theorem string_sink_run (ws : list (list byte * Z)) : forall out,
  Forall (fun w => 0 < snd w <= Z.of_nat (length (fst w))) ws ->
  aborted (run (to_string out) ws) = false /\
  Forall (fun r => r = true) (rets (run (to_string out) ws)) /\
  final (run (to_string out) ws)
  = to_string (out ++ concat (map named ws)) /\
  hasError (final (run (to_string out) ws)) = false /\
  pos (final (run (to_string out) ws))
  = narrow_int (Z.of_nat (length out)
                + Z.of_nat (length (concat (map named ws)))) /\
  (Z.of_nat (length out) + Z.of_nat (length (concat (map named ws)))
   <= INT_MAX ->
   pos (final (run (to_string out) ws))
   = pos (to_string out) + Z.of_nat (length (concat (map named ws)))).
Proof.
  induction ws as [| [data len] ws IH]; intros out Hall.
  - cbn [run aborted rets final map concat length]. rewrite app_nil_r.
    split; [reflexivity |]. split; [constructor |].
    split; [reflexivity |]. split; [reflexivity |].
    unfold pos, to_string, make.
    cbn [buf_pos StringBuffer_Buffer mBuffer mString].
    split; [f_equal; lia |].
    intros Hb. rewrite narrow_int_small by lia. lia.
  - inversion Hall as [| ? ? Hw Hrest]; subst. cbn [fst snd] in Hw.
    cbn [run]. rewrite write_to_string_take by lia.
    cbn [ret calls after aborted rets final map concat].
    destruct (IH (out ++ take (Z.to_nat len) data) Hrest)
      as (Ha & Hr & Hf & He & _).
    change (named (data, len)) with (take (Z.to_nat len) data).
    rewrite Hf, <- app_assoc.
    split; [exact Ha |]. split; [constructor; [reflexivity | exact Hr] |].
    split; [reflexivity |]. split; [reflexivity |].
    unfold pos, to_string, make.
    cbn [buf_pos StringBuffer_Buffer mBuffer mString].
    rewrite !length_app. split; [f_equal; lia |].
    intros Hb. rewrite !narrow_int_small by lia. lia.
Qed.

End StringSink.

Section StringSinkWitness.
Import Serializer Operators.

Lemma string_sink_run_witness :
  final (run (to_string [x2a]%byte)
           [([x01; x02; x03]%byte, 2); ([x04]%byte, 1)])
  = to_string [x2a; x01; x02; x04]%byte.
Proof.
  destruct (string_sink_run [([x01; x02; x03]%byte, 2); ([x04]%byte, 1)]
              [x2a]%byte) as (_ & _ & Hf & _).
  - repeat constructor; cbn; lia.
  - exact Hf.
Defined.

End StringSinkWitness.
